(** * hpcloud compute: the request encoder [Server.MarshalJSON]

    A shallow embedding of [compute.go]: the [Server] request type, its
    hand-written [MarshalJSON] and the [CreateServer] call built on it,
    followed by a small JSON recogniser used to state what the produced
    payload looks like on the wire.

    Go strings and byte slices are sequences of bytes: they are modelled
    by [string] (a sequence of 8-bit [ascii]).  Go's [int] values are
    modelled by [Z]; the encoder only compares and prints them.  A Go
    map has no iteration order of its own: the order in which one
    execution of [range] visits the entries is an explicit argument of
    the model, constrained by [map_range]. *)

From Stdlib Require Import ZArith Ascii String List Bool Lia.
From Stdlib Require Import Decimal DecimalString DecimalFacts DecimalPos DecimalZ.
From stdpp Require Import gmap strings list fin_maps.
Import ListNotations.

Local Open Scope string_scope.
Local Open Scope Z_scope.

(** ** Text helpers *)

(** The double quote, which a Rocq string literal cannot hold as such. *)
Definition dquote : ascii := "034"%char.
Definition bslash : ascii := "092"%char.

(** The Go literals of the source are transcribed with an apostrophe
    wherever the source has a double quote; [lit] puts the double quote
    back.  No literal of [compute.go] contains an apostrophe. *)
Fixpoint lit (s : string) : string :=
  match s with
  | EmptyString => EmptyString
  | String c rest =>
      String (if Ascii.eqb c "'"%char then dquote else c) (lit rest)
  end.

(** ** The [fmt] and [encoding/base64] calls the encoder makes *)

(** Operands of [fmt.Sprintf]. *)
Inductive operand :=
| a_s (s : string)
| a_d (z : Z).

(** [%d] on an integer: optional minus sign, then the decimal digits
    without leading zeros. *)
Definition FormatInt (z : Z) : string := NilZero.string_of_int (Z.to_int z).

(** [fmt.Sprintf] for the verbs the source uses, [%s] applied to a
    string and [%d] applied to an integer.  Every other byte of the
    format is copied.  (A verb without a fitting operand does not occur
    in [compute.go]; the model copies it like any other text.) *)
Fixpoint Sprintf (format : string) (args : list operand) : string :=
  match format with
  | EmptyString => EmptyString
  | String c rest =>
      match rest with
      | String v rest' =>
          if Ascii.eqb c "%"%char then
            match v, args with
            | "s"%char, a_s x :: args' => x +:+ Sprintf rest' args'
            | "d"%char, a_d z :: args' => FormatInt z +:+ Sprintf rest' args'
            | _, _ => String c (Sprintf rest args)
            end
          else String c (Sprintf rest args)
      | EmptyString => String c EmptyString
      end
  end.

Module base64.

(** The alphabet of [base64.StdEncoding]. *)
Definition encodeStd : string :=
  "ABCDEFGHIJKLMNOPQRSTUVWXYZabcdefghijklmnopqrstuvwxyz0123456789+/".

Definition padChar : ascii := "="%char.

Definition sextet (val : N) (shift : N) : ascii :=
  match String.get (N.to_nat (N.land (N.shiftr val shift) 63)) encodeStd with
  | Some c => c
  | None => padChar
  end.

(** The bytes [Encode] produces for [src]: four output bytes for every
    three input bytes, the last group padded. *)
Fixpoint encoded (src : list ascii) : list ascii :=
  match src with
  | [] => []
  | [x] =>
      let val := N.shiftl (N_of_ascii x) 16 in
      [sextet val 18; sextet val 12; padChar; padChar]
  | [x; y] =>
      let val := N.lor (N.shiftl (N_of_ascii x) 16)
                       (N.shiftl (N_of_ascii y) 8) in
      [sextet val 18; sextet val 12; sextet val 6; padChar]
  | x :: y :: z :: rest =>
      let val := N.lor (N.lor (N.shiftl (N_of_ascii x) 16)
                              (N.shiftl (N_of_ascii y) 8))
                       (N_of_ascii z) in
      ([sextet val 18; sextet val 12; sextet val 6; sextet val 0]
         ++ encoded rest)%list
  end.

(** [StdEncoding.Encode(dst, src)]: encodes [src] and writes the result
    over the beginning of [dst].  It returns at once when [src] is
    empty and panics ([None]) when [dst] is too short.  The result is
    the new content of [dst]; [src] is only read. *)
Definition Encode (dst src : list ascii) : option (list ascii) :=
  match src with
  | [] => Some dst
  | _ =>
      let e := encoded src in
      if (List.length e <=? List.length dst)%nat
      then Some (e ++ drop (List.length e) dst)%list
      else None
  end.

Definition EncodeToString (src : string) : string :=
  string_of_list_ascii (encoded (list_ascii_of_string src)).

End base64.

(** ** Data model *)

(** Server flavours, smallest to largest. *)
Definition Flavor := Z.
Definition XSmall : Flavor := 100.
Definition Small : Flavor := 101.
Definition Medium : Flavor := 102.
Definition Large : Flavor := 103.
Definition XLarge : Flavor := 104.
Definition DblXLarge : Flavor := 105.

Definition ServerImage := Z.
Definition UbuntuLucid10_04Kernel : ServerImage := 1235.
Definition UbuntuPrecise12_04 : ServerImage := 8419.

Record Link := { HREF : string; Rel : string }.

Module IDLink.
Record t := { Name : string; ID : string; Links : list Link }.
End IDLink.

Module Server.
Record t := {
  ConfigDrive : bool;
  FlavorRef : Flavor;
  ImageRef : ServerImage;
  MaxCount : Z;
  MinCount : Z;
  Name : string;
  Key : string;
  Personality : string;
  UserData : string;
  SecurityGroups : list IDLink.t;
  Metadata : gmap string string
}.
End Server.
Import Server.

(** [errors.New]. *)
Inductive error := errors_New (text : string).

(** The four errors of [MarshalJSON], under the names the specification
    gives them. *)
Definition InvalidFlavor : error :=
  errors_New "Flavor Reference refers to a non-existant flavour.".
Definition MissingImage : error := errors_New "An image name is required.".
Definition MissingName : error := errors_New "A name is required".
Definition PersonalityTooLarge : error :=
  errors_New "Server's personality cannot have >255 bytes.".

(** What a run does besides returning: lines printed on standard output
    and requests handed to the transport. *)
Inductive event :=
| Println (line : string)
| Request (path method : string) (body : option string).

(** A call either returns or panics. *)
Inductive outcome (A : Type) :=
| Returns (a : A)
| Panics.
Arguments Returns {A} a.
Arguments Panics {A}.

(** A run: the events in the order they happen, and how the call ends. *)
Definition run (A : Type) : Type := list event * outcome A.

(** [bytes.Buffer], used append-only. *)
Definition Buffer := string.
Definition NewBufferString (s : string) : Buffer := s.
Definition WriteString (b : Buffer) (s : string) : Buffer := b +:+ s.
Definition Bytes (b : Buffer) : string := b.

(** One execution of [for key, value := range m] visits every entry of
    [m] exactly once, in an order the language leaves open. *)
Definition map_range (m : gmap string string)
    (order : list (string * string)) : Prop :=
  order ≡ₚ map_to_list m.

(** ** The encoder *)

(** The body of the loop over [s.Metadata], run over the remaining
    entries; [len] is [len(s.Metadata)]. *)
Fixpoint range_Metadata (len : nat) (order : list (string * string))
    (b : Buffer) (cnt : nat) : Buffer * nat :=
  match order with
  | [] => (b, cnt)
  | (key, value) :: rest =>
      let b := WriteString b
                 (Sprintf (lit "'%s': '%s'") [a_s key; a_s value]) in
      if negb (cnt + 1 =? len)%nat
      then range_Metadata len rest (WriteString b ",") (cnt + 1)%nat
      else range_Metadata len rest (WriteString b "}") cnt
  end.

(** The body of the loop over [s.SecurityGroups]. *)
Fixpoint range_SecurityGroups (len : nat) (groups : list IDLink.t)
    (b : Buffer) (cnt : nat) : Buffer * nat :=
  match groups with
  | [] => (b, cnt)
  | sg :: rest =>
      let b := WriteString b
                 (Sprintf (lit "{'name': '%s'}") [a_s (IDLink.Name sg)]) in
      if negb (cnt + 1 =? len)%nat
      then range_SecurityGroups len rest (WriteString b ",") (cnt + 1)%nat
      else range_SecurityGroups len rest (WriteString b "]") cnt
  end.

Definition is_empty (s : string) : bool := String.eqb s EmptyString.

(** [Server.MarshalJSON].  [order] is the order in which this execution
    of the loop over [s.Metadata] visits the map. *)
Definition MarshalJSON (order : list (string * string)) (s : Server.t)
  : run (string * option error) :=
  let b := NewBufferString EmptyString in
  let b := WriteString b (lit "{'server':{") in
  (* The available images are 100-105, x-small to x-large. *)
  if (FlavorRef s <? 100) || (FlavorRef s >? 105) then
    ([], Returns (EmptyString, Some InvalidFlavor))
  else
  let b := WriteString b (Sprintf (lit "'flavorRef':%d") [a_d (FlavorRef s)]) in
  if ImageRef s =? 0 then
    ([], Returns (EmptyString, Some MissingImage))
  else
  let b := WriteString b (Sprintf (lit ",'imageRef':%d") [a_d (ImageRef s)]) in
  if is_empty (Name s) then
    ([], Returns (EmptyString, Some MissingName))
  else
  let b := WriteString b (Sprintf (lit ",'name':'%s'") [a_s (Name s)]) in
  (* Optional items *)
  (* The max size of a personality string is 255 bytes. *)
  if (255 <? String.length (Personality s))%nat then
    ([], Returns (EmptyString, Some PersonalityTooLarge))
  else
  let b :=
    if negb (is_empty (Personality s))
    then WriteString b
           (Sprintf (lit ",'personality':'%s',") [a_s (Personality s)])
    else b in
  let b :=
    if negb (is_empty (Key s))
    then WriteString b (Sprintf (lit ",'key_name':'%s'") [a_s (Key s)])
    else b in
  let b :=
    if ConfigDrive s
    then WriteString b (lit ",'config_drive': true")
    else b in
  let b :=
    if MinCount s >? 0
    then WriteString b (Sprintf (lit ",'min_count':%d") [a_d (MinCount s)])
    else b in
  let b :=
    if MaxCount s >? 0
    then WriteString b (Sprintf (lit ",'max_count':%d") [a_d (MaxCount s)])
    else b in
  let user_data : outcome Buffer :=
    if negb (is_empty (UserData s)) then
      (* user_data needs to be base64'd *)
      let newb : list ascii := [] in
      match base64.Encode (list_ascii_of_string (UserData s)) newb with
      | None => Panics
      | Some _ =>
          Returns (WriteString b
                     (Sprintf (lit ",'user_data': '%s',")
                              [a_s (string_of_list_ascii newb)]))
      end
    else Returns b in
  match user_data with
  | Panics => ([], Panics)
  | Returns b =>
      (* Ignore the metadata if there isn't any, it's optional. *)
      let '(printed, b) :=
        if (0 <? size (Metadata s))%nat then
          let b := WriteString b (lit ",'metadata':{") in
          let cnt := 0%nat in
          ([Println (FormatInt (Z.of_nat (size (Metadata s))))],
           fst (range_Metadata (size (Metadata s)) order b cnt))
        else ([], b) in
      (* Ignore the Security Groups if there isn't any, it's optional. *)
      let b :=
        if (0 <? List.length (SecurityGroups s))%nat then
          let b := WriteString b (lit ",'security_groups':[") in
          let cnt := 0%nat in
          fst (range_SecurityGroups (List.length (SecurityGroups s))
                 (SecurityGroups s) b cnt)
        else b in
      let b := WriteString b "}}" in
      (printed, Returns (Bytes b, None))
  end.

(** ** [CreateServer] and the transport *)

Section Transport.

(** [Access], [COMPUTE_URL] and [baseRequest] are declared in other
    files of the package.  [baseRequest] stands for the reply of the
    HTTP layer; the call itself is recorded as a [Request] event. *)
Variable Access : Type.
Variable TenantID : Access -> string.
Variable COMPUTE_URL : string.
Variable baseRequest :
  Access -> string -> string -> option string -> string * option error.

(** [ServerResponse] and its decoding by [encoding/json]. *)
Variable ServerResponse : Type.
Variable json_Unmarshal : string -> ServerResponse * option error.

Definition baseComputeRequest (a : Access) (url method : string)
    (b : option string) : run (string * option error) :=
  let path :=
    Sprintf "%s%s/%s" [a_s COMPUTE_URL; a_s (TenantID a); a_s url] in
  ([Request path method b], Returns (baseRequest a path method b)).

Definition CreateServer (order : list (string * string)) (a : Access)
    (s : Server.t) : run (option ServerResponse * option error) :=
  match MarshalJSON order s with
  | (ev, Panics) => (ev, Panics)
  | (ev, Returns (b, Some err)) => (ev, Returns (None, Some err))
  | (ev, Returns (b, None)) =>
      match baseComputeRequest a "servers" "POST" (Some b) with
      | (ev', Panics) => ((ev ++ ev')%list, Panics)
      | (ev', Returns (body, Some err)) =>
          ((ev ++ ev')%list, Returns (None, Some err))
      | (ev', Returns (body, None)) =>
          match json_Unmarshal body with
          | (sr, Some err) => ((ev ++ ev')%list, Returns (None, Some err))
          | (sr, None) => ((ev ++ ev')%list, Returns (Some sr, None))
          end
      end
  end.

End Transport.

(** ** The other operations of the compute API *)

Module Images.
Record t := { I : list IDLink.t }.
End Images.

Module Image.
Record inner := {
  Name : string;
  ID : string;
  Links : list Link;
  Progress : Z;
  Metadata : gmap string string;
  Status : string;
  Updated : string
}.
Record t := { I : inner }.
End Image.

Section Operations.

(** As for [CreateServer], [Access], [COMPUTE_URL] and [baseRequest]
    come from the other files of the package, and so does [Flavors];
    the three decoders stand for [json.Unmarshal] at the three result
    types. *)
Variable Access : Type.
Variable TenantID : Access -> string.
Variable COMPUTE_URL : string.
Variable baseRequest :
  Access -> string -> string -> option string -> string * option error.
Variable Flavors : Type.
Variable json_Unmarshal_Flavors : string -> Flavors * option error.
Variable json_Unmarshal_Images : string -> Images.t * option error.
Variable json_Unmarshal_Image : string -> Image.t * option error.

Definition DeleteServer (a : Access) (server_id : string)
  : run (option error) :=
  match baseComputeRequest Access TenantID COMPUTE_URL baseRequest a
          (Sprintf "servers/%s" [a_s server_id]) "DELETE" None with
  | (ev, Panics) => (ev, Panics)
  | (ev, Returns (_, Some err)) => (ev, Returns (Some err))
  | (ev, Returns (_, None)) => (ev, Returns None)
  end.

Definition RebootServer (a : Access) (server_id : string)
  : run (option error) :=
  (* The docs mention that a hard reboot will be used no matter what. *)
  let s := lit "{'reboot':{'type':'HARD'}}" in
  match baseComputeRequest Access TenantID COMPUTE_URL baseRequest a
          (Sprintf "servers/%s/action" [a_s server_id]) "POST" (Some s) with
  | (ev, Panics) => (ev, Panics)
  | (ev, Returns (_, Some err)) => (ev, Returns (Some err))
  | (ev, Returns (_, None)) => (ev, Returns None)
  end.

Definition ListFlavors (a : Access) : run (option Flavors * option error) :=
  match baseComputeRequest Access TenantID COMPUTE_URL baseRequest a
          "flavors" "GET" None with
  | (ev, Panics) => (ev, Panics)
  | (ev, Returns (body, Some err)) => (ev, Returns (None, Some err))
  | (ev, Returns (body, None)) =>
      match json_Unmarshal_Flavors body with
      | (fl, Some err) => (ev, Returns (None, Some err))
      | (fl, None) => (ev, Returns (Some fl, None))
      end
  end.

Definition ListImages (a : Access) : run (option Images.t * option error) :=
  match baseComputeRequest Access TenantID COMPUTE_URL baseRequest a
          "images" "GET" None with
  | (ev, Panics) => (ev, Panics)
  | (ev, Returns (body, Some err)) => (ev, Returns (None, Some err))
  | (ev, Returns (body, None)) =>
      match json_Unmarshal_Images body with
      | (im, Some err) => (ev, Returns (None, Some err))
      | (im, None) => (ev, Returns (Some im, None))
      end
  end.

Definition DeleteImage (a : Access) (image_id : string)
  : run (option error) :=
  match baseComputeRequest Access TenantID COMPUTE_URL baseRequest a
          (Sprintf "images/%s" [a_s image_id]) "DELETE" None with
  | (ev, Panics) => (ev, Panics)
  | (ev, Returns (_, Some err)) => (ev, Returns (Some err))
  | (ev, Returns (_, None)) => (ev, Returns None)
  end.

Definition ListImage (a : Access) (image_id : string)
  : run (option Image.t * option error) :=
  match baseComputeRequest Access TenantID COMPUTE_URL baseRequest a
          (Sprintf "images/%s" [a_s image_id]) "GET" None with
  | (ev, Panics) => (ev, Panics)
  | (ev, Returns (body, Some err)) => (ev, Returns (None, Some err))
  | (ev, Returns (body, None)) =>
      match json_Unmarshal_Image body with
      | (i, Some err) => (ev, Returns (None, Some err))
      | (i, None) => (ev, Returns (Some i, None))
      end
  end.

End Operations.

(** ** Reading a payload back: a JSON recogniser

    What "well-formed" means for the produced text is fixed by a
    recogniser for the JSON grammar of RFC 8259: a scanner that splits
    the text into tokens, and a push-down automaton over the tokens. *)

Inductive token :=
| TLBrace | TRBrace | TLBracket | TRBracket | TComma | TColon
| TString (raw : string)
| TNumber (raw : string)
| TLiteral (raw : string).

(** States of the number automaton: an optional minus sign; a single
    zero or a digit string without leading zero; optionally a dot and
    digits; optionally an exponent mark, a sign and digits. *)
Inductive nstate :=
| NMinus | NZero | NInt | NDot | NFrac | NE | NESign | NExp.

Inductive nmove :=
| NGo (st : nstate)
| NEnd
| NBad.

Definition is_digit (c : ascii) : bool :=
  let n := nat_of_ascii c in (48 <=? n)%nat && (n <=? 57)%nat.

Definition is_hex (c : ascii) : bool :=
  let n := nat_of_ascii c in
  is_digit c || ((65 <=? n)%nat && (n <=? 70)%nat)
             || ((97 <=? n)%nat && (n <=? 102)%nat).

Definition is_ws (c : ascii) : bool :=
  let n := nat_of_ascii c in
  (n =? 32)%nat || (n =? 9)%nat || (n =? 10)%nat || (n =? 13)%nat.

Definition is_exp (c : ascii) : bool :=
  Ascii.eqb c "e"%char || Ascii.eqb c "E"%char.

Definition is_sign (c : ascii) : bool :=
  Ascii.eqb c "+"%char || Ascii.eqb c "-"%char.

Definition naccepting (st : nstate) : bool :=
  match st with
  | NZero | NInt | NFrac | NExp => true
  | _ => false
  end.

Definition nstep (st : nstate) (c : ascii) : nmove :=
  match st with
  | NMinus =>
      if Ascii.eqb c "0"%char then NGo NZero
      else if is_digit c then NGo NInt else NBad
  | NZero =>
      if Ascii.eqb c "."%char then NGo NDot
      else if is_exp c then NGo NE
      else if is_digit c || is_sign c then NBad else NEnd
  | NInt =>
      if is_digit c then NGo NInt
      else if Ascii.eqb c "."%char then NGo NDot
      else if is_exp c then NGo NE
      else if is_sign c then NBad else NEnd
  | NDot => if is_digit c then NGo NFrac else NBad
  | NFrac =>
      if is_digit c then NGo NFrac
      else if is_exp c then NGo NE
      else if Ascii.eqb c "."%char || is_sign c then NBad else NEnd
  | NE =>
      if is_sign c then NGo NESign
      else if is_digit c then NGo NExp else NBad
  | NESign => if is_digit c then NGo NExp else NBad
  | NExp =>
      if is_digit c then NGo NExp
      else if Ascii.eqb c "."%char || is_exp c || is_sign c then NBad
      else NEnd
  end.

(** Where the scanner is. *)
Inductive lmode :=
| LDefault
| LString (acc : string)
| LEscape (acc : string)
| LUnicode (acc : string) (n : nat)
| LNumber (st : nstate) (acc : string)
| LWord (acc : string) (rest : string).

Definition snoc (acc : string) (c : ascii) : string :=
  acc +:+ String c EmptyString.

(** A character met between two tokens. *)
Definition lstart (c : ascii) : option (lmode * list token) :=
  if is_ws c then Some (LDefault, [])
  else if Ascii.eqb c "{"%char then Some (LDefault, [TLBrace])
  else if Ascii.eqb c "}"%char then Some (LDefault, [TRBrace])
  else if Ascii.eqb c "["%char then Some (LDefault, [TLBracket])
  else if Ascii.eqb c "]"%char then Some (LDefault, [TRBracket])
  else if Ascii.eqb c ","%char then Some (LDefault, [TComma])
  else if Ascii.eqb c ":"%char then Some (LDefault, [TColon])
  else if Ascii.eqb c dquote then Some (LString EmptyString, [])
  else if Ascii.eqb c "-"%char then Some (LNumber NMinus (snoc EmptyString c), [])
  else if Ascii.eqb c "0"%char then Some (LNumber NZero (snoc EmptyString c), [])
  else if is_digit c then Some (LNumber NInt (snoc EmptyString c), [])
  else if Ascii.eqb c "t"%char then Some (LWord (snoc EmptyString c) "rue", [])
  else if Ascii.eqb c "f"%char then Some (LWord (snoc EmptyString c) "alse", [])
  else if Ascii.eqb c "n"%char then Some (LWord (snoc EmptyString c) "ull", [])
  else None.

Definition is_escape (c : ascii) : bool :=
  Ascii.eqb c dquote || Ascii.eqb c bslash || Ascii.eqb c "/"%char
  || Ascii.eqb c "b"%char || Ascii.eqb c "f"%char || Ascii.eqb c "n"%char
  || Ascii.eqb c "r"%char || Ascii.eqb c "t"%char.

Definition lstep (m : lmode) (c : ascii) : option (lmode * list token) :=
  match m with
  | LDefault => lstart c
  | LString acc =>
      if Ascii.eqb c dquote then Some (LDefault, [TString acc])
      else if Ascii.eqb c bslash then Some (LEscape (snoc acc c), [])
      else if (nat_of_ascii c <? 32)%nat then None
      else Some (LString (snoc acc c), [])
  | LEscape acc =>
      if is_escape c then Some (LString (snoc acc c), [])
      else if Ascii.eqb c "u"%char then Some (LUnicode (snoc acc c) 4, [])
      else None
  | LUnicode acc n =>
      if is_hex c then
        match n with
        | O | S O => Some (LString (snoc acc c), [])
        | S n' => Some (LUnicode (snoc acc c) n', [])
        end
      else None
  | LNumber st acc =>
      match nstep st c with
      | NGo st' => Some (LNumber st' (snoc acc c), [])
      | NBad => None
      | NEnd =>
          match lstart c with
          | Some (m', ts) => Some (m', TNumber acc :: ts)
          | None => None
          end
      end
  | LWord acc rest =>
      match rest with
      | EmptyString => None
      | String r rest' =>
          if Ascii.eqb c r then
            match rest' with
            | EmptyString => Some (LDefault, [TLiteral (snoc acc c)])
            | _ => Some (LWord (snoc acc c) rest', [])
            end
          else None
      end
  end.

(** The tokens still owed when the text ends in mode [m]. *)
Definition lfinish (m : lmode) : option (list token) :=
  match m with
  | LDefault => Some []
  | LNumber st acc => if naccepting st then Some [TNumber acc] else None
  | _ => None
  end.

Fixpoint lrun (m : lmode) (s : string) : option (lmode * list token) :=
  match s with
  | EmptyString => Some (m, [])
  | String c rest =>
      match lstep m c with
      | None => None
      | Some (m', ts) =>
          match lrun m' rest with
          | None => None
          | Some (m'', ts') => Some (m'', (ts ++ ts')%list)
          end
      end
  end.

Definition lex (s : string) : option (list token) :=
  match lrun LDefault s with
  | None => None
  | Some (m, ts) =>
      match lfinish m with
      | None => None
      | Some ts' => Some (ts ++ ts')%list
      end
  end.

(** The push-down automaton. *)
Inductive frame := InObject | InArray.

Inductive pstate :=
| PValue        (* a value must follow *)
| PValueOrEnd   (* just after [ *)
| PKeyOrEnd     (* just after { *)
| PKey          (* after a separator inside an object *)
| PColon        (* after a key *)
| PNext         (* after a value inside a collection *)
| PDone.        (* the top-level value is complete *)

Definition after_value (stk : list frame) : pstate :=
  match stk with
  | [] => PDone
  | _ => PNext
  end.

Definition pstep (c : pstate * list frame) (t : token)
  : option (pstate * list frame) :=
  let '(st, stk) := c in
  match t with
  | TString _ =>
      match st with
      | PValue | PValueOrEnd => Some (after_value stk, stk)
      | PKeyOrEnd | PKey => Some (PColon, stk)
      | _ => None
      end
  | TNumber _ | TLiteral _ =>
      match st with
      | PValue | PValueOrEnd => Some (after_value stk, stk)
      | _ => None
      end
  | TLBrace =>
      match st with
      | PValue | PValueOrEnd => Some (PKeyOrEnd, InObject :: stk)
      | _ => None
      end
  | TLBracket =>
      match st with
      | PValue | PValueOrEnd => Some (PValueOrEnd, InArray :: stk)
      | _ => None
      end
  | TRBrace =>
      match st, stk with
      | (PKeyOrEnd | PNext), InObject :: stk' => Some (after_value stk', stk')
      | _, _ => None
      end
  | TRBracket =>
      match st, stk with
      | (PValueOrEnd | PNext), InArray :: stk' => Some (after_value stk', stk')
      | _, _ => None
      end
  | TComma =>
      match st, stk with
      | PNext, InObject :: _ => Some (PKey, stk)
      | PNext, InArray :: _ => Some (PValue, stk)
      | _, _ => None
      end
  | TColon =>
      match st with
      | PColon => Some (PValue, stk)
      | _ => None
      end
  end.

Fixpoint prun (c : pstate * list frame) (ts : list token)
  : option (pstate * list frame) :=
  match ts with
  | [] => Some c
  | t :: ts' =>
      match pstep c t with
      | None => None
      | Some c' => prun c' ts'
      end
  end.

Definition parse (ts : list token) : bool :=
  match prun (PValue, []) ts with
  | Some (PDone, []) => true
  | _ => false
  end.

(** The text is one JSON value. *)
Definition json_valid (s : string) : bool :=
  match lex s with
  | Some ts => parse ts
  | None => false
  end.

(** The text is one JSON object. *)
Definition json_object (s : string) : bool :=
  match lex s with
  | Some (TLBrace :: ts) => parse (TLBrace :: ts)
  | _ => false
  end.

(** ** Vocabulary of the statements *)

(** Validation as the specification words it: the four rules, checked in
    this order, the first violated one decides. *)
Definition validate (s : Server.t) : option error :=
  if negb ((100 <=? FlavorRef s) && (FlavorRef s <=? 105)) then
    Some InvalidFlavor
  else if ImageRef s =? 0 then Some MissingImage
  else if is_empty (Name s) then Some MissingName
  else if (255 <? String.length (Personality s))%nat then
    Some PersonalityTooLarge
  else None.

Definition valid (s : Server.t) : Prop := validate s = None.

(** The optional fields, in the order of the specification's table. *)
Inductive field :=
| personality | key_name | config_drive | min_count | max_count
| user_data | metadata | security_groups.

Definition optional_fields : list field :=
  [personality; key_name; config_drive; min_count; max_count;
   user_data; metadata; security_groups].

(** The name of a field on the wire. *)
Definition wire_name (f : field) : string :=
  match f with
  | personality => "personality"
  | key_name => "key_name"
  | config_drive => "config_drive"
  | min_count => "min_count"
  | max_count => "max_count"
  | user_data => "user_data"
  | metadata => "metadata"
  | security_groups => "security_groups"
  end.

(** The emit condition of a field, from the specification's table. *)
Definition emit (s : Server.t) (f : field) : bool :=
  match f with
  | personality => negb (is_empty (Personality s))
  | key_name => negb (is_empty (Key s))
  | config_drive => ConfigDrive s
  | min_count => 0 <? MinCount s
  | max_count => 0 <? MaxCount s
  | user_data => negb (is_empty (UserData s))
  | metadata => negb (size (Metadata s) =? 0)%nat
  | security_groups => negb (List.length (SecurityGroups s) =? 0)%nat
  end.

(** [x] between double quotes, byte for byte. *)
Definition quoted (x : string) : string :=
  String dquote (x +:+ String dquote EmptyString).

(** The items of a collection, a separator between neighbours and the
    closing bracket after the last one; nothing for no item. *)
Fixpoint joined (close : string) (items : list string) : string :=
  match items with
  | [] => EmptyString
  | [x] => x +:+ close
  | x :: rest => x +:+ "," +:+ joined close rest
  end.

Definition entry (kv : string * string) : string :=
  quoted (fst kv) +:+ ": " +:+ quoted (snd kv).

Definition group (sg : IDLink.t) : string :=
  lit "{'name': " +:+ quoted (IDLink.Name sg) +:+ "}".

(** The value a field is given on the wire. *)
Definition wire_value (order : list (string * string)) (s : Server.t)
    (f : field) : string :=
  match f with
  | personality => quoted (Personality s)
  | key_name => quoted (Key s)
  | config_drive => " true"
  | min_count => FormatInt (MinCount s)
  | max_count => FormatInt (MaxCount s)
  | user_data => " " +:+ quoted EmptyString
  | metadata => "{" +:+ joined "}" (map entry order)
  | security_groups => "[" +:+ joined "]" (map group (SecurityGroups s))
  end.

(** What follows the value of a field: two fields carry a separator of
    their own behind them. *)
Definition wire_tail (f : field) : string :=
  match f with
  | personality | user_data => ","
  | _ => EmptyString
  end.

(** The text of one optional field as the encoder writes it. *)
Definition written (order : list (string * string)) (s : Server.t)
    (f : field) : string :=
  "," +:+ quoted (wire_name f) +:+ ":" +:+ wire_value order s f
      +:+ wire_tail f.

Fixpoint flat (l : list string) : string :=
  match l with
  | [] => EmptyString
  | x :: rest => x +:+ flat rest
  end.

(** The three required fields, opening the object. *)
Definition required (s : Server.t) : string :=
  lit "{'server':{'flavorRef':" +:+ FormatInt (FlavorRef s)
    +:+ lit ",'imageRef':" +:+ FormatInt (ImageRef s)
    +:+ lit ",'name':" +:+ quoted (Name s).

(** The optional part of a payload: the fields whose emit condition
    holds, in table order. *)
Definition optional (order : list (string * string)) (s : Server.t)
  : string :=
  flat (map (written order s) (List.filter (emit s) optional_fields)).

(** What [MarshalJSON] prints on standard output. *)
Definition printed (s : Server.t) : list event :=
  if (0 <? size (Metadata s))%nat
  then [Println (FormatInt (Z.of_nat (size (Metadata s))))]
  else [].

(** [x] when [c] holds, nothing otherwise. *)
Definition opt (c : bool) (x : string) : string :=
  if c then x else EmptyString.

(** [x] occurs in [y]. *)
Definition occurs_in (x y : string) : Prop :=
  exists before after, y = before +:+ x +:+ after.

(** A digit string that does not start with a zero. *)
Definition leading_digit (d : uint) : bool :=
  match d with
  | Nil | D0 _ => false
  | _ => true
  end.

(** A byte that stands for itself inside a JSON string: not the double
    quote, not the backslash, not a control character. *)
Definition plain_char (c : ascii) : bool :=
  negb (Ascii.eqb c dquote) && negb (Ascii.eqb c bslash)
  && (32 <=? nat_of_ascii c)%nat.

Fixpoint plain (x : string) : bool :=
  match x with
  | EmptyString => true
  | String c rest => plain_char c && plain rest
  end.

(** Every text the encoder interpolates is plain. *)
Definition plain_request (s : Server.t) : Prop :=
  plain (Name s) = true /\ plain (Key s) = true
  /\ plain (Personality s) = true
  /\ (forall k v, Metadata s !! k = Some v ->
                  plain k = true /\ plain v = true)
  /\ Forall (fun sg => plain (IDLink.Name sg) = true) (SecurityGroups s).

(** The scanner may stop in mode [m]. *)
Definition ready (m : lmode) : bool :=
  match m with
  | LDefault => true
  | LNumber st _ => naccepting st
  | _ => false
  end.

Definition owed (m : lmode) : list token :=
  match lfinish m with
  | Some ts => ts
  | None => []
  end.

(** Read from between two tokens, [x] is exactly the tokens [ts]. *)
Definition scans (x : string) (ts : list token) : Prop :=
  exists m ts', lrun LDefault x = Some (m, ts') /\ ready m = true
                /\ ts = (ts' ++ owed m)%list.

(** The same, and [x] does not end inside a number. *)
Definition scans_closed (x : string) (ts : list token) : Prop :=
  lrun LDefault x = Some (LDefault, ts).

(** [x] is empty or starts with a separator or a closing bracket. *)
Definition closes (x : string) : bool :=
  match x with
  | EmptyString => true
  | String c _ =>
      Ascii.eqb c ","%char || Ascii.eqb c "}"%char || Ascii.eqb c "]"%char
  end.

(** The tokens of the payload. *)
Fixpoint joined_tokens (close : token) (items : list (list token))
  : list token :=
  match items with
  | [] => []
  | [x] => (x ++ [close])%list
  | x :: rest => (x ++ TComma :: joined_tokens close rest)%list
  end.

Definition entry_tokens (kv : string * string) : list token :=
  [TString (fst kv); TColon; TString (snd kv)].

Definition group_tokens (sg : IDLink.t) : list token :=
  [TLBrace; TString "name"; TColon; TString (IDLink.Name sg); TRBrace].

Definition value_tokens (order : list (string * string)) (s : Server.t)
    (f : field) : list token :=
  match f with
  | personality => [TString (Personality s)]
  | key_name => [TString (Key s)]
  | config_drive => [TLiteral "true"]
  | min_count => [TNumber (FormatInt (MinCount s))]
  | max_count => [TNumber (FormatInt (MaxCount s))]
  | user_data => [TString EmptyString]
  | metadata => TLBrace :: joined_tokens TRBrace (map entry_tokens order)
  | security_groups =>
      TLBracket :: joined_tokens TRBracket
                     (map group_tokens (SecurityGroups s))
  end.

(** The fields whose format string ends with a separator. *)
Definition tailed (f : field) : bool :=
  match f with
  | personality | user_data => true
  | _ => false
  end.

Definition tail_tokens (f : field) : list token :=
  match f with
  | personality | user_data => [TComma]
  | _ => []
  end.

Definition field_tokens (order : list (string * string)) (s : Server.t)
    (f : field) : list token :=
  ([TComma; TString (wire_name f); TColon]
     ++ value_tokens order s f ++ tail_tokens f)%list.

Definition required_tokens (s : Server.t) : list token :=
  [TLBrace; TString "server"; TColon; TLBrace;
   TString "flavorRef"; TColon; TNumber (FormatInt (FlavorRef s)); TComma;
   TString "imageRef"; TColon; TNumber (FormatInt (ImageRef s)); TComma;
   TString "name"; TColon; TString (Name s)].

Definition payload_tokens (order : list (string * string)) (s : Server.t)
    (fs : list field) : list token :=
  (required_tokens s ++ concat (map (field_tokens order s) fs)
     ++ [TRBrace; TRBrace])%list.

(** The byte [c] is one of the bytes of [x]. *)
Fixpoint contains (c : ascii) (x : string) : bool :=
  match x with
  | EmptyString => false
  | String c' rest => Ascii.eqb c c' || contains c rest
  end.

(** A minimal request: the required fields only. *)
Definition sample : Server.t :=
  {| ConfigDrive := false; FlavorRef := XSmall;
     ImageRef := UbuntuLucid10_04Kernel; MaxCount := 0; MinCount := 0;
     Name := "web"; Key := EmptyString; Personality := EmptyString;
     UserData := EmptyString; SecurityGroups := []; Metadata := ∅ |}.

(** A text of [n] bytes. *)
Fixpoint filler (n : nat) : string :=
  match n with
  | O => EmptyString
  | S n' => String "a"%char (filler n')
  end.

(** Requests breaking one or several rules. *)
Definition with_flavor (f : Flavor) (s : Server.t) : Server.t :=
  {| ConfigDrive := ConfigDrive s; FlavorRef := f; ImageRef := ImageRef s;
     MaxCount := MaxCount s; MinCount := MinCount s; Name := Name s;
     Key := Key s; Personality := Personality s; UserData := UserData s;
     SecurityGroups := SecurityGroups s; Metadata := Metadata s |}.

Definition with_image (i : ServerImage) (s : Server.t) : Server.t :=
  {| ConfigDrive := ConfigDrive s; FlavorRef := FlavorRef s; ImageRef := i;
     MaxCount := MaxCount s; MinCount := MinCount s; Name := Name s;
     Key := Key s; Personality := Personality s; UserData := UserData s;
     SecurityGroups := SecurityGroups s; Metadata := Metadata s |}.

Definition with_name (n : string) (s : Server.t) : Server.t :=
  {| ConfigDrive := ConfigDrive s; FlavorRef := FlavorRef s;
     ImageRef := ImageRef s; MaxCount := MaxCount s; MinCount := MinCount s;
     Name := n; Key := Key s; Personality := Personality s;
     UserData := UserData s; SecurityGroups := SecurityGroups s;
     Metadata := Metadata s |}.

Definition with_personality (p : string) (s : Server.t) : Server.t :=
  {| ConfigDrive := ConfigDrive s; FlavorRef := FlavorRef s;
     ImageRef := ImageRef s; MaxCount := MaxCount s; MinCount := MinCount s;
     Name := Name s; Key := Key s; Personality := p;
     UserData := UserData s; SecurityGroups := SecurityGroups s;
     Metadata := Metadata s |}.

Definition with_user_data (u : string) (s : Server.t) : Server.t :=
  {| ConfigDrive := ConfigDrive s; FlavorRef := FlavorRef s;
     ImageRef := ImageRef s; MaxCount := MaxCount s; MinCount := MinCount s;
     Name := Name s; Key := Key s; Personality := Personality s;
     UserData := u; SecurityGroups := SecurityGroups s;
     Metadata := Metadata s |}.

Definition with_metadata (m : gmap string string) (s : Server.t)
  : Server.t :=
  {| ConfigDrive := ConfigDrive s; FlavorRef := FlavorRef s;
     ImageRef := ImageRef s; MaxCount := MaxCount s; MinCount := MinCount s;
     Name := Name s; Key := Key s; Personality := Personality s;
     UserData := UserData s; SecurityGroups := SecurityGroups s;
     Metadata := m |}.

Definition with_groups (g : list IDLink.t) (s : Server.t) : Server.t :=
  {| ConfigDrive := ConfigDrive s; FlavorRef := FlavorRef s;
     ImageRef := ImageRef s; MaxCount := MaxCount s; MinCount := MinCount s;
     Name := Name s; Key := Key s; Personality := Personality s;
     UserData := UserData s; SecurityGroups := g;
     Metadata := Metadata s |}.

(** A map with two entries. *)
Definition two_entries : gmap string string :=
  {[ "a" := "1"; "b" := "2" ]}.

Definition named (n : string) : IDLink.t :=
  {| IDLink.Name := n; IDLink.ID := EmptyString; IDLink.Links := [] |}.

Definition with_key (k : string) (s : Server.t) : Server.t :=
  {| ConfigDrive := ConfigDrive s; FlavorRef := FlavorRef s;
     ImageRef := ImageRef s; MaxCount := MaxCount s; MinCount := MinCount s;
     Name := Name s; Key := k; Personality := Personality s;
     UserData := UserData s; SecurityGroups := SecurityGroups s;
     Metadata := Metadata s |}.

(** What of a request the encoder looks at: flavor, image, name, key,
    personality and the config-drive flag as they are; of the two
    counts their positive part; of the user data whether it is empty;
    the metadata; of the security groups their names. *)
Definition wire_view (s : Server.t) :=
  (FlavorRef s, ImageRef s, Name s, Key s, Personality s, ConfigDrive s,
   Z.max 0 (MinCount s), Z.max 0 (MaxCount s), is_empty (UserData s),
   Metadata s, map IDLink.Name (SecurityGroups s)).

(** The tokens of the optional fields in [l] that are written, up to
    the end of the payload. *)
Definition rest_tokens (order : list (string * string)) (s : Server.t)
    (l : list field) : list token :=
  (concat (map (fun f => if emit s f then field_tokens order s f else [])
             l)
     ++ [TRBrace; TRBrace])%list.

(** A token list that starts like the rest of a payload: with the
    closing brace, or with the separator and the name of a field of [l]. *)
Definition heads (l : list field) (ts : list token) : Prop :=
  (exists rest, ts = TRBrace :: rest)
  \/ (exists f rest, In f l /\ ts = TComma :: TString (wire_name f) :: rest).

(** What the value of a field tells about the request. *)
Definition value_view (order : list (string * string)) (s : Server.t)
    (f : field) : string * list (string * string) * list string :=
  match f with
  | personality => (Personality s, [], [])
  | key_name => (Key s, [], [])
  | min_count => (FormatInt (MinCount s), [], [])
  | max_count => (FormatInt (MaxCount s), [], [])
  | metadata => (EmptyString, order, [])
  | security_groups =>
      (EmptyString, [], map IDLink.Name (SecurityGroups s))
  | config_drive | user_data => (EmptyString, [], [])
  end.

(** The transport of the examples: it answers every request with the
    body [body] and the error [err]. *)
Definition answering (body : string) (err : option error)
  : unit -> string -> string -> option string -> string * option error :=
  fun _ _ _ _ => (body, err).

(** Two requests that differ in what the encoder does not read. *)
Definition lossy_a : Server.t :=
  {| ConfigDrive := false; FlavorRef := Medium;
     ImageRef := UbuntuPrecise12_04; MaxCount := 0; MinCount := -3;
     Name := "db"; Key := EmptyString; Personality := EmptyString;
     UserData := "first";
     SecurityGroups :=
       [{| IDLink.Name := "default"; IDLink.ID := "17";
           IDLink.Links := [{| HREF := "h"; Rel := "self" |}] |}];
     Metadata := ∅ |}.

Definition lossy_b : Server.t :=
  {| ConfigDrive := false; FlavorRef := Medium;
     ImageRef := UbuntuPrecise12_04; MaxCount := -1; MinCount := 0;
     Name := "db"; Key := EmptyString; Personality := EmptyString;
     UserData := "second"; SecurityGroups := [named "default"];
     Metadata := ∅ |}.

(** The member names met at nesting depth [target], in the order of the
    text: a member name is a string followed by a colon.  [depth] is the
    number of collections open before [ts]. *)
Fixpoint keys_at (target depth : nat) (ts : list token) : list string :=
  match ts with
  | [] => []
  | t :: rest =>
      match t with
      | TLBrace | TLBracket => keys_at target (S depth) rest
      | TRBrace | TRBracket => keys_at target (Nat.pred depth) rest
      | TString k =>
          match rest with
          | TColon :: _ =>
              if (depth =? target)%nat then k :: keys_at target depth rest
              else keys_at target depth rest
          | _ => keys_at target depth rest
          end
      | _ => keys_at target depth rest
      end
  end.

(** The names of the members of the object under "server": the fields
    that appear in a payload. *)
Definition member_names (ts : list token) : list string := keys_at 2 0 ts.

(** The names one level further down, in an object that is the value of
    a member: the keys of the metadata entries. *)
Definition inner_names (ts : list token) : list string := keys_at 3 0 ts.

(** Some collection of [ts] is closed right after it is opened. *)
Fixpoint empty_collection (ts : list token) : bool :=
  match ts with
  | [] => false
  | t :: rest =>
      match t, rest with
      | TLBrace, TRBrace :: _ => true
      | TLBracket, TRBracket :: _ => true
      | _, _ => empty_collection rest
      end
  end.

(** The number of double quotes among the bytes of [x]. *)
Fixpoint quotes (x : string) : nat :=
  match x with
  | EmptyString => O
  | String c rest =>
      ((if Ascii.eqb c dquote then 1 else 0) + quotes rest)%nat
  end.

(** The double quotes of the texts interpolated into a field. *)
Definition field_quotes (order : list (string * string)) (s : Server.t)
    (f : field) : nat :=
  match f with
  | personality => quotes (Personality s)
  | key_name => quotes (Key s)
  | metadata =>
      list_sum (map (fun kv => quotes (fst kv) + quotes (snd kv))%nat order)
  | security_groups =>
      list_sum (map (fun sg => quotes (IDLink.Name sg)) (SecurityGroups s))
  | config_drive | min_count | max_count | user_data => O
  end.

(** The double quotes of the interpolated texts other than the name:
    key name, personality, the metadata keys and values in the order of
    the visit, the names of the security groups. *)
Definition other_quotes (order : list (string * string)) (s : Server.t)
  : nat :=
  (quotes (Key s) + quotes (Personality s)
   + list_sum (map (fun kv => quotes (fst kv) + quotes (snd kv)) order)
   + list_sum (map (fun sg => quotes (IDLink.Name sg)) (SecurityGroups s)))%nat.

(** The double quotes of all the interpolated texts. *)
Definition text_quotes (order : list (string * string)) (s : Server.t)
  : nat :=
  (quotes (Name s) + other_quotes order s)%nat.

(** No interpolated text other than the name holds a backslash. *)
Definition others_without_backslash (s : Server.t) : Prop :=
  contains bslash (Key s) = false
  /\ contains bslash (Personality s) = false
  /\ (forall k v, Metadata s !! k = Some v ->
                  contains bslash k = false /\ contains bslash v = false)
  /\ Forall (fun sg => contains bslash (IDLink.Name sg) = false)
       (SecurityGroups s).

(** The scanner is inside a string. *)
Definition in_string (m : lmode) : bool :=
  match m with
  | LString _ => true
  | _ => false
  end.

(** The modes the scanner can be in while it reads a text without
    backslash: never behind an escape mark, and the letters a literal
    still lacks hold no double quote. *)
Definition steady (m : lmode) : bool :=
  match m with
  | LDefault | LString _ | LNumber _ _ => true
  | LWord _ rest => negb (contains dquote rest)
  | LEscape _ | LUnicode _ _ => false
  end.

(** A request with some optional fields set and the others left at
    their zero value. *)
Definition partly_set : Server.t :=
  {| ConfigDrive := true; FlavorRef := Large;
     ImageRef := UbuntuPrecise12_04; MaxCount := 0; MinCount := 1;
     Name := "db"; Key := "mine"; Personality := EmptyString;
     UserData := EmptyString; SecurityGroups := [named "default"];
     Metadata := {[ "role" := "web" ]} |}.

(** A name that closes its own string and goes on with a member. *)
Definition name_with_member : string := lit "web','key_name':'mine".

(** ** Texts *)

Arguments FormatInt : simpl never.
#[local] Arguments String.append !_ _ : simpl nomatch.

(** Bounds on the fields of a concrete request. *)
Ltac by_lia := simpl; unfold XSmall, UbuntuLucid10_04Kernel; lia.

(** The texts of a concrete request are plain, by evaluation. *)
Ltac by_plain :=
  unfold plain_request; simpl; repeat split; try constructor;
  match goal with
  | H : _ !! _ = Some _ |- _ => vm_compute in H; discriminate H
  end.

(** The same for a request with security groups. *)
Ltac by_plain_groups :=
  unfold plain_request; simpl; repeat split;
  first [ now repeat constructor
        | match goal with
          | H : _ !! _ = Some _ |- _ => vm_compute in H; discriminate H
          end ].

(** The visit of a concrete map, by evaluation. *)
Ltac by_visit := unfold map_range; vm_compute; reflexivity.

Lemma append_nil_r (x : string) : x +:+ EmptyString = x.
Proof. induction x as [|c x IH]; simpl; [reflexivity | now rewrite IH]. Qed.

Lemma append_nil_l (x : string) : EmptyString +:+ x = x.
Proof. reflexivity. Qed.

Lemma append_assoc (x y z : string) : (x +:+ y) +:+ z = x +:+ (y +:+ z).
Proof. induction x as [|c x IH]; simpl; [reflexivity | now rewrite IH]. Qed.

(** Flattening of nested texts. *)
Create Rewrite HintDb texts.
#[local] Hint Rewrite append_assoc append_nil_r append_nil_l : texts.

Lemma is_empty_true (x : string) : is_empty x = true <-> x = EmptyString.
Proof. unfold is_empty. apply String.eqb_eq. Qed.

Lemma is_empty_false (x : string) : is_empty x = false <-> x <> EmptyString.
Proof. unfold is_empty. apply String.eqb_neq. Qed.

Lemma Sprintf_flavorRef z :
  Sprintf (lit "'flavorRef':%d") [a_d z] = lit "'flavorRef':" +:+ FormatInt z.
Proof. cbn. now rewrite append_nil_r. Qed.

Lemma Sprintf_imageRef z :
  Sprintf (lit ",'imageRef':%d") [a_d z] = lit ",'imageRef':" +:+ FormatInt z.
Proof. cbn. now rewrite append_nil_r. Qed.

Lemma Sprintf_name x :
  Sprintf (lit ",'name':'%s'") [a_s x] = lit ",'name':" +:+ quoted x.
Proof. reflexivity. Qed.

Lemma Sprintf_personality s order :
  Sprintf (lit ",'personality':'%s',") [a_s (Personality s)]
  = written order s personality.
Proof. unfold written. cbn. now autorewrite with texts. Qed.

Lemma Sprintf_key_name s order :
  Sprintf (lit ",'key_name':'%s'") [a_s (Key s)] = written order s key_name.
Proof. unfold written. cbn. now autorewrite with texts. Qed.

Lemma lit_config_drive s order :
  lit ",'config_drive': true" = written order s config_drive.
Proof. reflexivity. Qed.

Lemma Sprintf_min_count s order :
  Sprintf (lit ",'min_count':%d") [a_d (MinCount s)]
  = written order s min_count.
Proof. unfold written. cbn. now autorewrite with texts. Qed.

Lemma Sprintf_max_count s order :
  Sprintf (lit ",'max_count':%d") [a_d (MaxCount s)]
  = written order s max_count.
Proof. unfold written. cbn. now autorewrite with texts. Qed.

Lemma Sprintf_user_data s order :
  Sprintf (lit ",'user_data': '%s',") [a_s (string_of_list_ascii [])]
  = written order s user_data.
Proof. reflexivity. Qed.

Lemma Sprintf_entry key value :
  Sprintf (lit "'%s': '%s'") [a_s key; a_s value] = entry (key, value).
Proof. unfold entry, quoted. cbn. now autorewrite with texts. Qed.

Lemma Sprintf_group sg :
  Sprintf (lit "{'name': '%s'}") [a_s (IDLink.Name sg)] = group sg.
Proof. unfold group, quoted. cbn. now autorewrite with texts. Qed.

(** [Encode] called with an empty source returns without touching
    anything: it neither panics nor produces a byte. *)
Lemma Encode_empty_src dst : base64.Encode dst [] = Some dst.
Proof. reflexivity. Qed.

(** ** The shape of the payload *)

Lemma WriteString_opt (c : bool) (b : Buffer) (x : string) :
  (if c then WriteString b x else b) = b +:+ opt c x.
Proof. destruct c; simpl; [reflexivity | now rewrite append_nil_r]. Qed.

Lemma flat_filter {A} (e : A -> bool) (w : A -> string) (l : list A) :
  flat (map w (List.filter e l)) = flat (map (fun f => opt (e f) (w f)) l).
Proof.
  induction l as [|f l IH]; simpl; [reflexivity|].
  destruct (e f); simpl; now rewrite IH.
Qed.

Lemma range_Metadata_joined len order b cnt :
  (cnt + List.length order = len)%nat ->
  fst (range_Metadata len order b cnt) = b +:+ joined "}" (map entry order).
Proof.
  revert b cnt. induction order as [|[key value] rest IH]; intros b cnt Hlen.
  - simpl. now rewrite append_nil_r.
  - cbn [range_Metadata]. rewrite Sprintf_entry. unfold WriteString.
    destruct rest as [|kv rest].
    + simpl in Hlen. replace (cnt + 1 =? len)%nat with true
        by (symmetry; apply Nat.eqb_eq; lia).
      simpl. now rewrite append_assoc.
    + replace (cnt + 1 =? len)%nat with false
        by (symmetry; apply Nat.eqb_neq; simpl in Hlen; lia).
      cbn [negb]. rewrite IH by (simpl in *; lia).
      cbn [map joined]. now rewrite !append_assoc.
Qed.

Lemma range_SecurityGroups_joined len groups b cnt :
  (cnt + List.length groups = len)%nat ->
  fst (range_SecurityGroups len groups b cnt)
  = b +:+ joined "]" (map group groups).
Proof.
  revert b cnt. induction groups as [|sg rest IH]; intros b cnt Hlen.
  - simpl. now rewrite append_nil_r.
  - cbn [range_SecurityGroups]. rewrite Sprintf_group. unfold WriteString.
    destruct rest as [|sg' rest].
    + simpl in Hlen. replace (cnt + 1 =? len)%nat with true
        by (symmetry; apply Nat.eqb_eq; lia).
      simpl. now rewrite append_assoc.
    + replace (cnt + 1 =? len)%nat with false
        by (symmetry; apply Nat.eqb_neq; simpl in Hlen; lia).
      cbn [negb]. rewrite IH by (simpl in *; lia).
      cbn [map joined]. now rewrite !append_assoc.
Qed.

(** The loops only ever append to the buffer. *)
Lemma range_Metadata_appends len order b cnt :
  fst (range_Metadata len order b cnt)
  = b +:+ fst (range_Metadata len order EmptyString cnt).
Proof.
  revert b cnt. induction order as [|[key value] rest IH]; intros b cnt.
  - simpl. now rewrite append_nil_r.
  - cbn [range_Metadata]. unfold WriteString.
    rewrite Sprintf_entry. set (e := entry _).
    destruct (negb (cnt + 1 =? len)%nat).
    + rewrite (IH ((b +:+ e) +:+ ",")), (IH ((EmptyString +:+ e) +:+ ",")).
      rewrite !append_assoc, append_nil_l. reflexivity.
    + rewrite (IH ((b +:+ e) +:+ "}")), (IH ((EmptyString +:+ e) +:+ "}")).
      rewrite !append_assoc, append_nil_l. reflexivity.
Qed.

Lemma range_SecurityGroups_appends len groups b cnt :
  fst (range_SecurityGroups len groups b cnt)
  = b +:+ fst (range_SecurityGroups len groups EmptyString cnt).
Proof.
  revert b cnt. induction groups as [|sg rest IH]; intros b cnt.
  - simpl. now rewrite append_nil_r.
  - cbn [range_SecurityGroups]. unfold WriteString.
    rewrite Sprintf_group. set (e := group _).
    destruct (negb (cnt + 1 =? len)%nat).
    + rewrite (IH ((b +:+ e) +:+ ",")), (IH ((EmptyString +:+ e) +:+ ",")).
      rewrite !append_assoc, append_nil_l. reflexivity.
    + rewrite (IH ((b +:+ e) +:+ "]")), (IH ((EmptyString +:+ e) +:+ "]")).
      rewrite !append_assoc, append_nil_l. reflexivity.
Qed.

Lemma map_range_length m order :
  map_range m order -> List.length order = size m.
Proof.
  unfold map_range. intros H. rewrite H. apply length_map_to_list.
Qed.

(** What validation lets through. *)
Lemma valid_inv s :
  valid s ->
  (FlavorRef s <? 100) || (FlavorRef s >? 105) = false
  /\ (ImageRef s =? 0) = false
  /\ is_empty (Name s) = false
  /\ (255 <? String.length (Personality s))%nat = false.
Proof.
  unfold valid, validate. intros H.
  destruct (100 <=? FlavorRef s) eqn:H1, (FlavorRef s <=? 105) eqn:H2;
    try discriminate H.
  cbn [andb negb] in H.
  destruct (ImageRef s =? 0) eqn:H3; [discriminate H|].
  destruct (is_empty (Name s)) eqn:H4; [discriminate H|].
  destruct (255 <? String.length (Personality s))%nat eqn:H5;
    [discriminate H|].
  repeat split; try reflexivity.
  apply orb_false_intro; [|rewrite Z.gtb_ltb]; apply Z.ltb_ge; lia.
Qed.

(** A request that passes validation is encoded as the required fields,
    then the optional fields whose emit condition holds, then the two
    closing braces. *)
Lemma MarshalJSON_valid order s :
  valid s -> List.length order = size (Metadata s) ->
  MarshalJSON order s
  = (printed s, Returns (required s +:+ optional order s +:+ "}}", None)).
Proof.
  intros Hv Hlen. apply valid_inv in Hv as (H1 & H2 & H3 & H4).
  unfold MarshalJSON. rewrite H1, H2, H3, H4.
  rewrite Sprintf_flavorRef, Sprintf_imageRef, Sprintf_name.
  rewrite (Sprintf_personality s order), (Sprintf_key_name s order),
    (lit_config_drive s order), (Sprintf_min_count s order),
    (Sprintf_max_count s order).
  rewrite !WriteString_opt. unfold NewBufferString, WriteString, Bytes.
  unfold optional, printed. rewrite flat_filter. cbn [map optional_fields flat emit].
  rewrite Encode_empty_src, (Sprintf_user_data s order).
  rewrite !Z.gtb_ltb. unfold required.
  destruct (is_empty (UserData s)); cbn [negb opt];
    (destruct (size (Metadata s)) as [|n] eqn:Hsize;
     [|rewrite range_Metadata_joined by lia]);
    cbn [Nat.ltb Nat.leb Nat.eqb negb opt]; cbv iota beta;
    (destruct (SecurityGroups s) as [|sg groups] eqn:Hgroups;
     [|rewrite range_SecurityGroups_joined by reflexivity]);
    cbn [Nat.ltb Nat.leb Nat.eqb List.length negb opt];
    unfold written; cbn [wire_name wire_value wire_tail];
    rewrite ?Hgroups; autorewrite with texts; reflexivity.
Qed.

Lemma MarshalJSON_ok order s :
  valid s -> map_range (Metadata s) order ->
  MarshalJSON order s
  = (printed s, Returns (required s +:+ optional order s +:+ "}}", None)).
Proof.
  intros Hv Hr. apply MarshalJSON_valid; [assumption|].
  now apply map_range_length.
Qed.

(** A request that fails validation is answered with the error of the
    first violated rule, an empty payload and no event. *)
Lemma MarshalJSON_invalid order s e :
  validate s = Some e ->
  MarshalJSON order s = ([], Returns (EmptyString, Some e)).
Proof.
  unfold validate, MarshalJSON. intros H.
  destruct (Z.leb_spec 100 (FlavorRef s)) as [H1|H1];
    destruct (Z.leb_spec (FlavorRef s) 105) as [H2|H2]; cbn [andb negb] in H.
  - replace ((FlavorRef s <? 100) || (FlavorRef s >? 105)) with false
      by (symmetry; apply orb_false_intro; [|rewrite Z.gtb_ltb];
          apply Z.ltb_ge; lia).
    destruct (ImageRef s =? 0); [now inversion H|].
    destruct (is_empty (Name s)); [now inversion H|].
    destruct (255 <? String.length (Personality s))%nat;
      [now inversion H | discriminate H].
  - replace (FlavorRef s >? 105) with true
      by (symmetry; rewrite Z.gtb_ltb; apply Z.ltb_lt; lia).
    rewrite orb_true_r. now inversion H.
  - replace (FlavorRef s <? 100) with true
      by (symmetry; apply Z.ltb_lt; lia).
    now inversion H.
  - lia.
Qed.

Lemma validate_cases s :
  (validate s = Some InvalidFlavor /\ ~ (100 <= FlavorRef s <= 105))
  \/ (validate s = Some MissingImage
      /\ 100 <= FlavorRef s <= 105 /\ ImageRef s = 0)
  \/ (validate s = Some MissingName
      /\ 100 <= FlavorRef s <= 105 /\ ImageRef s <> 0
      /\ Name s = EmptyString)
  \/ (validate s = Some PersonalityTooLarge
      /\ 100 <= FlavorRef s <= 105 /\ ImageRef s <> 0
      /\ Name s <> EmptyString
      /\ (255 < String.length (Personality s))%nat)
  \/ (validate s = None
      /\ 100 <= FlavorRef s <= 105 /\ ImageRef s <> 0
      /\ Name s <> EmptyString
      /\ (String.length (Personality s) <= 255)%nat).
Proof.
  unfold validate.
  destruct (Z.leb_spec 100 (FlavorRef s)); [|left; split; [reflexivity|lia]].
  destruct (Z.leb_spec (FlavorRef s) 105);
    [|left; split; [reflexivity|lia]].
  cbn [andb negb]. right.
  destruct (Z.eqb_spec (ImageRef s) 0); [left; repeat split; lia|]. right.
  destruct (is_empty (Name s)) eqn:Hn.
  { left. apply is_empty_true in Hn. repeat split; try lia; assumption. }
  apply is_empty_false in Hn. right.
  destruct (Nat.ltb_spec 255 (String.length (Personality s)));
    [left | right]; repeat split; try lia; assumption.
Qed.

Lemma valid_iff s :
  valid s <->
  100 <= FlavorRef s <= 105 /\ ImageRef s <> 0 /\ Name s <> EmptyString
  /\ (String.length (Personality s) <= 255)%nat.
Proof.
  unfold valid.
  destruct (validate_cases s)
    as [[E H]|[[E H]|[[E H]|[[E H]|[E H]]]]]; rewrite E;
    (split; [intros X; try discriminate X; assumption | intros X]);
    try reflexivity; exfalso; try tauto; try lia.
Qed.

Lemma emit_iff s :
  (emit s personality = true <-> Personality s <> EmptyString)
  /\ (emit s key_name = true <-> Key s <> EmptyString)
  /\ (emit s config_drive = true <-> ConfigDrive s = true)
  /\ (emit s min_count = true <-> 0 < MinCount s)
  /\ (emit s max_count = true <-> 0 < MaxCount s)
  /\ (emit s user_data = true <-> UserData s <> EmptyString)
  /\ (emit s metadata = true <-> Metadata s <> ∅)
  /\ (emit s security_groups = true <-> SecurityGroups s <> []).
Proof.
  cbn [emit]. rewrite !negb_true_iff, !is_empty_false, !Z.ltb_lt, !Nat.eqb_neq.
  repeat split; try tauto.
  - intros H E. apply H. rewrite E. apply map_size_empty.
  - intros H E. apply H. now apply map_size_empty_inv.
  - intros H E. apply H. now rewrite E.
  - intros H E. apply H. now destruct (SecurityGroups s).
Qed.

(** Whatever order the map is visited in, a request that passes
    validation is encoded without error: the payload starts with the
    required fields and the optional fields written before the two
    collections. *)
Lemma MarshalJSON_valid_head order s :
  valid s ->
  exists rest,
    MarshalJSON order s
    = (printed s,
       Returns (required s
                +:+ flat (map (fun f => opt (emit s f) (written order s f))
                            [personality; key_name; config_drive;
                             min_count; max_count; user_data])
                +:+ rest, None)).
Proof.
  intros Hv. apply valid_inv in Hv as (H1 & H2 & H3 & H4).
  unfold MarshalJSON. rewrite H1, H2, H3, H4.
  rewrite Sprintf_flavorRef, Sprintf_imageRef, Sprintf_name.
  rewrite (Sprintf_personality s order), (Sprintf_key_name s order),
    (lit_config_drive s order), (Sprintf_min_count s order),
    (Sprintf_max_count s order).
  rewrite !WriteString_opt. unfold NewBufferString, WriteString, Bytes.
  unfold printed. cbn [map flat emit].
  rewrite Encode_empty_src, (Sprintf_user_data s order).
  rewrite !Z.gtb_ltb. unfold required.
  exists (opt (0 <? size (Metadata s))%nat
            (lit ",'metadata':{"
             +:+ fst (range_Metadata (size (Metadata s)) order EmptyString 0))
          +:+ opt (0 <? List.length (SecurityGroups s))%nat
                (lit ",'security_groups':["
                 +:+ fst (range_SecurityGroups
                            (List.length (SecurityGroups s))
                            (SecurityGroups s) EmptyString 0))
          +:+ "}}").
  destruct (is_empty (UserData s)); cbn [negb opt];
    destruct (0 <? size (Metadata s))%nat; cbv iota beta;
    try rewrite (range_SecurityGroups_appends _ _ (_ +:+ _));
    try rewrite (range_Metadata_appends _ _ (_ +:+ _));
    destruct (0 <? List.length (SecurityGroups s))%nat; cbn [opt];
    autorewrite with texts; reflexivity.
Qed.

Lemma MarshalJSON_error order s payload e :
  snd (MarshalJSON order s) = Returns (payload, Some e) ->
  validate s = Some e.
Proof.
  intros H. destruct (validate s) as [e'|] eqn:Hv.
  - rewrite (MarshalJSON_invalid order s e' Hv) in H. now inversion H.
  - destruct (MarshalJSON_valid_head order s Hv) as [rest E].
    rewrite E in H. discriminate H.
Qed.

Lemma errors_distinct :
  List.NoDup [InvalidFlavor; MissingImage; MissingName; PersonalityTooLarge].
Proof.
  repeat (constructor; [cbn [In]; intros H; intuition discriminate|]).
  constructor.
Qed.


(** ** Fields of the payload *)

Lemma optional_fields_NoDup : List.NoDup optional_fields.
Proof.
  unfold optional_fields.
  repeat (constructor; [cbn [In]; intros H; intuition discriminate|]).
  constructor.
Qed.


Lemma map_range_singleton k v order :
  map_range {[ k := v ]} order <-> order = [(k, v)].
Proof.
  unfold map_range. rewrite map_to_list_singleton.
  apply Permutation_singleton_r.
Qed.


(** ** Determinism *)

(** Only the metadata field reads the iteration order. *)
Lemma written_order order1 order2 s f :
  f <> metadata -> written order1 s f = written order2 s f.
Proof. intros H. destruct f; try reflexivity. now contradiction H. Qed.

Lemma order_of_visit_shows :
  map_range two_entries [("a", "1"); ("b", "2")]
  /\ map_range two_entries [("b", "2"); ("a", "1")]
  /\ MarshalJSON [("a", "1"); ("b", "2")] (with_metadata two_entries sample)
     <> MarshalJSON [("b", "2"); ("a", "1")] (with_metadata two_entries sample).
Proof.
  split; [by_visit|]. split.
  - unfold map_range. vm_compute. apply perm_swap.
  - vm_compute. discriminate.
Qed.




(** ** Scanning a payload *)

Lemma lrun_app m a b :
  lrun m (a +:+ b)
  = match lrun m a with
    | None => None
    | Some (m1, t1) =>
        match lrun m1 b with
        | None => None
        | Some (m2, t2) => Some (m2, (t1 ++ t2)%list)
        end
    end.
Proof.
  revert m. induction a as [|c a IH]; intros m.
  - simpl. destruct (lrun m b) as [[m2 t2]|]; reflexivity.
  - cbn [String.append lrun].
    destruct (lstep m c) as [[m' ts]|]; [|reflexivity].
    rewrite IH. destruct (lrun m' a) as [[m1 t1]|]; [|reflexivity].
    destruct (lrun m1 b) as [[m2 t2]|]; [|reflexivity].
    now rewrite app_assoc.
Qed.

Lemma plain_char_inv c :
  plain_char c = true ->
  Ascii.eqb c dquote = false /\ Ascii.eqb c bslash = false
  /\ (nat_of_ascii c <? 32)%nat = false.
Proof.
  unfold plain_char. rewrite !andb_true_iff, !negb_true_iff.
  intros [[H1 H2] H3]. repeat split; try assumption.
  apply Nat.ltb_ge. now apply Nat.leb_le.
Qed.

Lemma lrun_plain acc x :
  plain x = true -> lrun (LString acc) x = Some (LString (acc +:+ x), []).
Proof.
  revert acc. induction x as [|c x IH]; intros acc H.
  - simpl. now rewrite append_nil_r.
  - cbn [plain] in H. apply andb_true_iff in H as [Hc Hx].
    apply plain_char_inv in Hc as (H1 & H2 & H3).
    cbn [lrun lstep]. rewrite H1, H2, H3, (IH _ Hx).
    unfold snoc. now rewrite append_assoc.
Qed.

Lemma scans_quoted x :
  plain x = true -> scans_closed (quoted x) [TString x].
Proof.
  intros H. unfold scans_closed, quoted.
  change (String dquote (x +:+ String dquote EmptyString))
    with (String dquote EmptyString +:+ x +:+ String dquote EmptyString).
  rewrite lrun_app.
  replace (lrun LDefault (String dquote EmptyString))
    with (Some (LString EmptyString, @nil token)) by reflexivity.
  rewrite lrun_app, (lrun_plain _ _ H). reflexivity.
Qed.

(** *** Numbers *)

Lemma to_uint_leading_digit p : leading_digit (Pos.to_uint p) = true.
Proof.
  pose proof (DecimalPos.Unsigned.to_of (Pos.to_uint p)) as H.
  rewrite DecimalPos.Unsigned.of_to in H. cbn [N.to_uint] in H.
  symmetry in H.
  pose proof (DecimalPos.Unsigned.to_uint_nonzero p) as Hz.
  pose proof (DecimalPos.Unsigned.to_uint_nonnil p) as Hn.
  destruct (Pos.to_uint p) as [|d| | | | | | | | |]; try reflexivity.
  - now contradiction Hn.
  - exfalso. rewrite unorm_D0 in H.
    destruct d as [|d'| | | | | | | | |];
      try (apply (f_equal nb_digits) in H;
           match type of H with
           | nb_digits (unorm ?u) = _ =>
               pose proof (nb_digits_unorm u ltac:(discriminate))
           end; cbn [nb_digits] in *; lia).
    now contradiction Hz.
Qed.

Lemma lrun_digits acc d :
  lrun (LNumber NInt acc) (NilEmpty.string_of_uint d)
  = Some (LNumber NInt (acc +:+ NilEmpty.string_of_uint d), []).
Proof.
  revert acc. induction d; intros acc;
    cbn [NilEmpty.string_of_uint];
    try (cbn [lrun]; now rewrite append_nil_r);
    (cbn [lrun lstep];
     match goal with
     | |- context [nstep NInt ?c] =>
         replace (nstep NInt c) with (NGo NInt) by reflexivity
     end;
     rewrite IHd; unfold snoc; now rewrite append_assoc).
Qed.

Lemma lrun_leading_digits d :
  leading_digit d = true ->
  lrun LDefault (NilEmpty.string_of_uint d)
  = Some (LNumber NInt (NilEmpty.string_of_uint d), [])
  /\ lrun (LNumber NMinus "-") (NilEmpty.string_of_uint d)
     = Some (LNumber NInt ("-" +:+ NilEmpty.string_of_uint d), []).
Proof.
  intros H. destruct d; try discriminate H;
    cbn [NilEmpty.string_of_uint lrun]; split;
    (match goal with
     | |- context [lstep ?m ?c] =>
         let r := eval vm_compute in (lstep m c) in
         replace (lstep m c) with r by reflexivity
     end;
     rewrite lrun_digits; reflexivity).
Qed.

(** A printed integer is one number token, whatever follows. *)
Lemma lrun_FormatInt z :
  exists st,
    naccepting st = true
    /\ lrun LDefault (FormatInt z) = Some (LNumber st (FormatInt z), []).
Proof.
  unfold FormatInt. destruct z as [|p|p]; cbn [Z.to_int].
  - exists NZero. split; reflexivity.
  - exists NInt. split; [reflexivity|].
    pose proof (to_uint_leading_digit p) as H.
    cbn [NilZero.string_of_int]. unfold NilZero.string_of_uint.
    destruct (Pos.to_uint p) eqn:E; try discriminate H;
      rewrite <- E in *; now apply lrun_leading_digits.
  - exists NInt. split; [reflexivity|].
    pose proof (to_uint_leading_digit p) as H.
    cbn [NilZero.string_of_int]. unfold NilZero.string_of_uint.
    destruct (Pos.to_uint p) eqn:E; try discriminate H;
      rewrite <- E in *;
      cbn [lrun]; (replace (lstep LDefault "-"%char)
        with (Some (LNumber NMinus "-", @nil token)) by reflexivity);
      rewrite (proj2 (lrun_leading_digits _ H)); reflexivity.
Qed.

Lemma scans_FormatInt z : scans (FormatInt z) [TNumber (FormatInt z)].
Proof.
  destruct (lrun_FormatInt z) as (st & Hst & H).
  exists (LNumber st (FormatInt z)), []. split; [exact H|].
  split; [exact Hst|]. unfold owed. cbn [lfinish]. now rewrite Hst.
Qed.

(** *** Putting pieces together *)

Lemma scans_closed_scans x ts : scans_closed x ts -> scans x ts.
Proof.
  intros H. exists LDefault, ts. split; [exact H|]. split; [reflexivity|].
  unfold owed. simpl. now rewrite app_nil_r.
Qed.

Lemma scans_lex x ts : scans x ts -> lex x = Some ts.
Proof.
  intros (m & ts' & H & Hr & E). unfold lex. rewrite H. subst ts.
  unfold owed. destruct m; try discriminate Hr; cbn [lfinish]; [reflexivity|].
  cbn [ready] in Hr. now rewrite Hr.
Qed.

(** A number ends at a separator or a closing bracket. *)
Lemma lrun_number_ends st acc x :
  naccepting st = true -> closes x = true -> x <> EmptyString ->
  lrun (LNumber st acc) x
  = match lrun LDefault x with
    | Some (m, ts) => Some (m, TNumber acc :: ts)
    | None => None
    end.
Proof.
  intros Hst Hx Hne. destruct x as [|c x]; [now contradiction Hne|].
  cbn [closes] in Hx. cbn [lrun].
  assert (Hc : c = ","%char \/ c = "}"%char \/ c = "]"%char).
  { apply orb_true_iff in Hx as [Hx|Hx];
      [apply orb_true_iff in Hx as [Hx|Hx]|];
      apply Ascii.eqb_eq in Hx; tauto. }
  destruct Hc as [->|[->| ->]];
    destruct st; try discriminate Hst; cbn [lstep];
    match goal with
    | |- context [nstep ?s ?c] =>
        replace (nstep s c) with NEnd by reflexivity
    end;
    match goal with
    | |- context [lstart ?c] =>
        let r := eval vm_compute in (lstart c) in
        replace (lstart c) with r by reflexivity
    end;
    destruct (lrun LDefault x) as [[m ts]|]; reflexivity.
Qed.

Lemma scans_nil ts : scans EmptyString ts -> ts = [].
Proof.
  intros (m & ts' & H & _ & E). cbn [lrun] in H. inversion H. now subst.
Qed.

Lemma scans_app a b ta tb :
  scans a ta -> scans b tb -> closes b = true ->
  scans (a +:+ b) (ta ++ tb).
Proof.
  intros (ma & ta' & Ha & Hra & Ea) Hb Hc.
  destruct (String.string_dec b EmptyString) as [->|Hne].
  { apply scans_nil in Hb. subst tb. rewrite append_nil_r, app_nil_r.
    exists ma, ta'. auto. }
  destruct Hb as (mb & tb' & Hb & Hrb & Eb).
  destruct ma; try discriminate Hra.
  - exists mb, (ta' ++ tb')%list. rewrite lrun_app, Ha, Hb.
    split; [reflexivity|]. split; [exact Hrb|].
    subst. unfold owed at 1. cbn [lfinish].
    now rewrite app_nil_r, app_assoc.
  - cbn [ready] in Hra.
    exists mb, (ta' ++ TNumber acc :: tb')%list.
    rewrite lrun_app, Ha, (lrun_number_ends _ _ _ Hra Hc Hne), Hb.
    split; [reflexivity|]. split; [exact Hrb|].
    subst. unfold owed at 1. cbn [lfinish]. rewrite Hra.
    now rewrite <- !app_assoc.
Qed.

Lemma scans_closed_app a b ta tb :
  scans_closed a ta -> scans b tb -> scans (a +:+ b) (ta ++ tb).
Proof.
  intros Ha (mb & tb' & Hb & Hrb & Eb).
  exists mb, (ta ++ tb')%list. rewrite lrun_app, Ha, Hb.
  split; [reflexivity|]. split; [exact Hrb|]. subst. now rewrite app_assoc.
Qed.

Lemma scans_closed_app_closed a b ta tb :
  scans_closed a ta -> scans_closed b tb -> scans_closed (a +:+ b) (ta ++ tb).
Proof.
  unfold scans_closed. intros Ha Hb. now rewrite lrun_app, Ha, Hb.
Qed.

Lemma closes_append a b :
  closes a = true -> closes b = true -> closes (a +:+ b) = true.
Proof. destruct a; intros Ha Hb; [exact Hb | exact Ha]. Qed.

Lemma scans_entry kv :
  plain (fst kv) = true -> plain (snd kv) = true ->
  scans_closed (entry kv) (entry_tokens kv).
Proof.
  intros Hk Hv. unfold entry.
  apply (scans_closed_app_closed _ _ [TString (fst kv)]
           [TColon; TString (snd kv)]).
  - now apply scans_quoted.
  - apply (scans_closed_app_closed ": " _ [TColon] [TString (snd kv)]).
    + reflexivity.
    + now apply scans_quoted.
Qed.

Lemma scans_group sg :
  plain (IDLink.Name sg) = true -> scans_closed (group sg) (group_tokens sg).
Proof.
  intros Hn. unfold group.
  apply (scans_closed_app_closed _ _ [TLBrace; TString "name"; TColon]
           [TString (IDLink.Name sg); TRBrace]).
  - reflexivity.
  - apply (scans_closed_app_closed _ "}" [TString (IDLink.Name sg)] [TRBrace]).
    + now apply scans_quoted.
    + reflexivity.
Qed.

Lemma scans_joined {A} (f : A -> string) (g : A -> list token)
    (close : string) (ctok : token) (l : list A) :
  (forall x, In x l -> scans_closed (f x) (g x)) ->
  scans_closed close [ctok] ->
  scans_closed (joined close (map f l)) (joined_tokens ctok (map g l)).
Proof.
  intros Hl Hc. induction l as [|x l IH]; [reflexivity|].
  assert (Hx : scans_closed (f x) (g x)) by (apply Hl; now left).
  assert (IH' : scans_closed (joined close (map f l))
                  (joined_tokens ctok (map g l)))
    by (apply IH; intros y Hy; apply Hl; now right).
  destruct l as [|y l].
  - cbn [map joined joined_tokens]. now apply scans_closed_app_closed.
  - change (joined close (map f (x :: y :: l)))
      with (f x +:+ "," +:+ joined close (map f (y :: l))).
    change (joined_tokens ctok (map g (x :: y :: l)))
      with (g x ++ [TComma] ++ joined_tokens ctok (map g (y :: l)))%list.
    apply scans_closed_app_closed; [exact Hx|].
    apply scans_closed_app_closed; [reflexivity | exact IH'].
Qed.

Lemma written_split order s f :
  written order s f
  = ("," +:+ quoted (wire_name f) +:+ ":")
      +:+ (wire_value order s f +:+ wire_tail f).
Proof. unfold written. now rewrite !append_assoc. Qed.

Lemma scans_written order s f :
  plain_request s ->
  (forall kv, In kv order -> plain (fst kv) = true /\ plain (snd kv) = true) ->
  scans (written order s f) (field_tokens order s f).
Proof.
  intros (Hn & Hk & Hp & _ & Hg) Ho.
  rewrite written_split. unfold field_tokens.
  apply (scans_closed_app _ _ [TComma; TString (wire_name f); TColon]).
  { destruct f; reflexivity. }
  assert (Ht : scans (wire_tail f) (tail_tokens f))
    by (apply scans_closed_scans; destruct f; reflexivity).
  assert (Hc : closes (wire_tail f) = true) by (destruct f; reflexivity).
  apply scans_app; [|exact Ht | exact Hc].
  destruct f; cbn [wire_value value_tokens].
  - apply scans_closed_scans. now apply scans_quoted.
  - apply scans_closed_scans. now apply scans_quoted.
  - apply scans_closed_scans. reflexivity.
  - apply scans_FormatInt.
  - apply scans_FormatInt.
  - apply scans_closed_scans. reflexivity.
  - apply scans_closed_scans.
    apply (scans_closed_app_closed "{" _ [TLBrace]); [reflexivity|].
    apply scans_joined; [|reflexivity].
    intros kv Hkv. apply scans_entry; now apply Ho.
  - apply scans_closed_scans.
    apply (scans_closed_app_closed "[" _ [TLBracket]); [reflexivity|].
    apply scans_joined; [|reflexivity].
    intros sg Hsg. apply scans_group.
    rewrite Forall_forall in Hg. apply Hg. now apply list_elem_of_In.
Qed.

Lemma closes_written order s f : closes (written order s f) = true.
Proof. reflexivity. Qed.

Lemma scans_fields order s fs :
  plain_request s ->
  (forall kv, In kv order -> plain (fst kv) = true /\ plain (snd kv) = true) ->
  scans (flat (map (written order s) fs))
    (concat (map (field_tokens order s) fs))
  /\ closes (flat (map (written order s) fs)) = true.
Proof.
  intros Hs Ho. induction fs as [|f fs [IH1 IH2]].
  - split; [|reflexivity]. apply scans_closed_scans. reflexivity.
  - cbn [map flat concat]. split.
    + apply scans_app; [now apply scans_written | exact IH1 | exact IH2].
    + apply closes_append; [apply closes_written | exact IH2].
Qed.

Lemma scans_required s :
  plain (Name s) = true -> scans (required s) (required_tokens s).
Proof.
  intros Hn. unfold required, required_tokens.
  apply (scans_closed_app _ _
           [TLBrace; TString "server"; TColon; TLBrace;
            TString "flavorRef"; TColon]); [reflexivity|].
  apply (scans_app _ _ [TNumber (FormatInt (FlavorRef s))]);
    [apply scans_FormatInt | | reflexivity].
  apply (scans_closed_app _ _ [TComma; TString "imageRef"; TColon]);
    [reflexivity|].
  apply (scans_app _ _ [TNumber (FormatInt (ImageRef s))]);
    [apply scans_FormatInt | | reflexivity].
  apply scans_closed_scans.
  apply (scans_closed_app_closed _ _ [TComma; TString "name"; TColon]);
    [reflexivity|].
  now apply scans_quoted.
Qed.

(** The tokens of a payload made of plain texts. *)
Lemma scans_payload order s fs :
  plain_request s ->
  (forall kv, In kv order -> plain (fst kv) = true /\ plain (snd kv) = true) ->
  lex (required s +:+ flat (map (written order s) fs) +:+ "}}")
  = Some (payload_tokens order s fs).
Proof.
  intros Hs Ho. apply scans_lex. unfold payload_tokens.
  destruct (scans_fields order s fs Hs Ho) as [H1 H2].
  apply scans_app.
  - apply scans_required. apply Hs.
  - apply scans_app; [exact H1 | | reflexivity].
    apply scans_closed_scans. reflexivity.
  - apply closes_append; [exact H2 | reflexivity].
Qed.

(** ** Parsing a payload *)

Lemma prun_app c a b :
  prun c (a ++ b)
  = match prun c a with
    | Some c' => prun c' b
    | None => None
    end.
Proof.
  revert c. induction a as [|x a IH]; intros c; [reflexivity|].
  cbn [app prun]. destruct (pstep c x); [apply IH | reflexivity].
Qed.

Lemma prun_required s :
  prun (PValue, []) (required_tokens s) = Some (PNext, [InObject; InObject]).
Proof. reflexivity. Qed.

(** The entries of a non-empty object, up to its closing brace. *)
Lemma prun_entries stk st order :
  order <> [] -> st = PKeyOrEnd \/ st = PKey ->
  prun (st, InObject :: stk)
    (joined_tokens TRBrace (map entry_tokens order))
  = Some (after_value stk, stk).
Proof.
  revert st. induction order as [|kv order IH]; intros st Hne Hst;
    [now contradiction Hne|].
  destruct order as [|kv' order].
  - destruct Hst as [-> | ->]; reflexivity.
  - change (joined_tokens TRBrace (map entry_tokens (kv :: kv' :: order)))
      with (entry_tokens kv ++ [TComma]
            ++ joined_tokens TRBrace (map entry_tokens (kv' :: order)))%list.
    rewrite prun_app.
    replace (prun (st, InObject :: stk) (entry_tokens kv))
      with (Some (PNext, InObject :: stk))
      by (destruct Hst as [-> | ->]; reflexivity).
    rewrite prun_app. cbn [prun pstep].
    apply IH; [discriminate | now right].
Qed.

(** The objects of a non-empty array, up to its closing bracket. *)
Lemma prun_groups stk st groups :
  groups <> [] -> st = PValueOrEnd \/ st = PValue ->
  prun (st, InArray :: stk)
    (joined_tokens TRBracket (map group_tokens groups))
  = Some (after_value stk, stk).
Proof.
  revert st. induction groups as [|sg groups IH]; intros st Hne Hst;
    [now contradiction Hne|].
  destruct groups as [|sg' groups].
  - destruct Hst as [-> | ->]; reflexivity.
  - change (joined_tokens TRBracket (map group_tokens (sg :: sg' :: groups)))
      with (group_tokens sg ++ [TComma]
            ++ joined_tokens TRBracket (map group_tokens (sg' :: groups)))%list.
    rewrite prun_app.
    replace (prun (st, InArray :: stk) (group_tokens sg))
      with (Some (PNext, InArray :: stk))
      by (destruct Hst as [-> | ->]; reflexivity).
    rewrite prun_app. cbn [prun pstep].
    apply IH; [discriminate | now right].
Qed.

(** One field inside the server object.  After a field that carries its
    own separator the automaton expects a key. *)
Lemma prun_field stk order s f :
  (f = metadata -> order <> []) ->
  (f = security_groups -> SecurityGroups s <> []) ->
  prun (PNext, InObject :: stk) (field_tokens order s f)
  = Some (if tailed f then PKey else PNext, InObject :: stk).
Proof.
  intros Hm Hg. unfold field_tokens. rewrite prun_app.
  cbn [prun pstep]. rewrite prun_app.
  destruct f; cbn [value_tokens tail_tokens tailed]; try reflexivity.
  - cbn [prun pstep].
    rewrite (prun_entries (InObject :: stk) PKeyOrEnd order);
      [reflexivity | now apply Hm | now left].
  - cbn [prun pstep].
    rewrite (prun_groups (InObject :: stk) PValueOrEnd (SecurityGroups s));
      [reflexivity | now apply Hg | now left].
Qed.

Lemma field_tokens_head order s f :
  exists ts, field_tokens order s f = TComma :: ts.
Proof. unfold field_tokens. eexists. reflexivity. Qed.

Lemma prun_fields stk order s fs rest :
  (In metadata fs -> order <> []) ->
  (In security_groups fs -> SecurityGroups s <> []) ->
  prun (PNext, InObject :: stk)
    (concat (map (field_tokens order s) fs) ++ TRBrace :: rest)
  = if existsb tailed fs then None
    else prun (PNext, InObject :: stk) (TRBrace :: rest).
Proof.
  intros Hm Hg. induction fs as [|f fs IH]; [reflexivity|].
  cbn [map concat existsb]. rewrite <- app_assoc, prun_app.
  rewrite prun_field;
    [| intros ->; apply Hm; now left | intros ->; apply Hg; now left].
  specialize (IH (fun H => Hm (or_intror H)) (fun H => Hg (or_intror H))).
  destruct (tailed f); cbn [orb]; [|exact IH].
  destruct fs as [|f' fs]; [reflexivity|].
  cbn [map concat]. destruct (field_tokens_head order s f') as [ts ->].
  reflexivity.
Qed.

Lemma existsb_tailed s :
  existsb tailed (List.filter (emit s) optional_fields)
  = negb (is_empty (Personality s)) || negb (is_empty (UserData s)).
Proof.
  unfold optional_fields. cbn [List.filter emit].
  destruct (is_empty (Personality s)), (is_empty (Key s)), (ConfigDrive s),
    (0 <? MinCount s), (0 <? MaxCount s), (is_empty (UserData s)),
    (size (Metadata s) =? 0)%nat, (List.length (SecurityGroups s) =? 0)%nat;
    reflexivity.
Qed.

Lemma map_range_plain s order :
  plain_request s -> map_range (Metadata s) order ->
  forall kv, In kv order -> plain (fst kv) = true /\ plain (snd kv) = true.
Proof.
  intros (_ & _ & _ & Hm & _) Hr [k v] Hkv. apply (Hm k v).
  apply elem_of_map_to_list. unfold map_range in Hr. rewrite <- Hr.
  now apply list_elem_of_In.
Qed.

Lemma json_valid_parse x ts : lex x = Some ts -> json_valid x = parse ts.
Proof. unfold json_valid. now intros ->. Qed.

Lemma json_object_parse x ts :
  lex x = Some (TLBrace :: ts) -> json_object x = parse (TLBrace :: ts).
Proof. unfold json_object. now intros ->. Qed.

(** A payload made of plain texts is a well-formed JSON object exactly
    when neither personality nor user_data is written. *)
Lemma plain_payload_well_formed order s payload :
  valid s -> map_range (Metadata s) order -> plain_request s ->
  snd (MarshalJSON order s) = Returns (payload, None) ->
  json_object payload
  = is_empty (Personality s) && is_empty (UserData s)
  /\ json_valid payload = json_object payload.
Proof.
  intros Hv Hr Hp E. rewrite (MarshalJSON_ok order s Hv Hr) in E.
  cbn [snd] in E.
  assert (Ep : payload = required s +:+ optional order s +:+ "}}")
    by congruence.
  subst payload. clear E. unfold optional.
  pose proof (scans_payload order s (List.filter (emit s) optional_fields)
                Hp (map_range_plain s order Hp Hr)) as L.
  rewrite (json_valid_parse _ _ L).
  rewrite (json_object_parse _
             (List.tl (payload_tokens order s
                         (List.filter (emit s) optional_fields))) L).
  change (TLBrace :: List.tl (payload_tokens order s
                                (List.filter (emit s) optional_fields)))
    with (payload_tokens order s (List.filter (emit s) optional_fields)).
  split; [|reflexivity].
  unfold parse, payload_tokens.
  rewrite prun_app, prun_required, prun_fields, existsb_tailed.
  - destruct (is_empty (Personality s)), (is_empty (UserData s)); reflexivity.
  - rewrite filter_In. intros [_ H] ->.
    apply map_range_length in Hr. cbn [emit] in H. simpl in Hr.
    rewrite <- Hr in H. discriminate H.
  - rewrite filter_In. intros [_ H] E. cbn [emit] in H. rewrite E in H.
    discriminate H.
Qed.


(** ** Interpolated texts *)

Lemma occurs_in_refl x : occurs_in x x.
Proof. exists EmptyString, EmptyString. now rewrite append_nil_r. Qed.

Lemma occurs_in_app_l x a b : occurs_in x a -> occurs_in x (a +:+ b).
Proof.
  intros (p & q & ->). exists p, (q +:+ b). now rewrite !append_assoc.
Qed.

Lemma occurs_in_app_r x a b : occurs_in x b -> occurs_in x (a +:+ b).
Proof.
  intros (p & q & ->). exists (a +:+ p), q. now rewrite !append_assoc.
Qed.

Lemma occurs_in_flat x l : In x l -> occurs_in x (flat l).
Proof.
  induction l as [|y l IH]; [intros []|]. intros [->|H]; cbn [flat].
  - apply occurs_in_app_l, occurs_in_refl.
  - now apply occurs_in_app_r, IH.
Qed.

Lemma occurs_in_joined x close items :
  In x items -> occurs_in x (joined close items).
Proof.
  induction items as [|y items IH]; [intros []|].
  intros [->|H]; destruct items as [|z items]; cbn [joined].
  - apply occurs_in_app_l, occurs_in_refl.
  - apply occurs_in_app_l, occurs_in_refl.
  - destruct H.
  - apply occurs_in_app_r, occurs_in_app_r. now apply IH.
Qed.

Lemma occurs_in_trans x y z : occurs_in x y -> occurs_in y z -> occurs_in x z.
Proof.
  intros Hxy (p & q & ->). now apply occurs_in_app_r, occurs_in_app_l.
Qed.

(** A field whose emit condition holds has its text in the payload. *)
Lemma written_occurs order s f :
  emit s f = true ->
  occurs_in (written order s f) (required s +:+ optional order s +:+ "}}").
Proof.
  intros H. apply occurs_in_app_r, occurs_in_app_l. unfold optional.
  apply occurs_in_flat, in_map, filter_In. split; [|exact H].
  unfold optional_fields. cbn [In].
  destruct f; repeat first [left; reflexivity | right].
Qed.

Lemma plain_sample : plain_request sample.
Proof. by_plain. Qed.

(** ** What the encoder reads of a request *)

Lemma count_written (m1 m2 : Z) (b : Buffer) (format : string) :
  Z.max 0 m1 = Z.max 0 m2 ->
  (if m1 >? 0 then WriteString b (Sprintf format [a_d m1]) else b)
  = (if m2 >? 0 then WriteString b (Sprintf format [a_d m2]) else b).
Proof.
  intros H. rewrite !Z.gtb_ltb.
  destruct (Z.ltb_spec 0 m1), (Z.ltb_spec 0 m2);
    try reflexivity; try (exfalso; lia).
  replace m2 with m1 by lia. reflexivity.
Qed.

Lemma range_SecurityGroups_names len groups1 groups2 b cnt :
  map IDLink.Name groups1 = map IDLink.Name groups2 ->
  range_SecurityGroups len groups1 b cnt
  = range_SecurityGroups len groups2 b cnt.
Proof.
  revert groups2 b cnt.
  induction groups1 as [|sg1 groups1 IH]; intros [|sg2 groups2] b cnt H;
    try discriminate H; [reflexivity|].
  cbn [map] in H. injection H as Hn Hrest.
  cbn [range_SecurityGroups]. rewrite Hn.
  destruct (negb (cnt + 1 =? len)%nat); now apply IH.
Qed.

Lemma required_not_empty s x : required s +:+ x <> EmptyString.
Proof. unfold required. discriminate. Qed.

Lemma quoted_carries_key_name n k :
  quoted (n +:+ lit "','key_name':'" +:+ k)
  = quoted n +:+ lit ",'key_name':" +:+ quoted k.
Proof. unfold quoted. simpl. now autorewrite with texts. Qed.

Lemma append_cancel_nil (x y : string) : x +:+ y = x -> y = EmptyString.
Proof.
  intros H. apply (String.app_inj x). now rewrite append_nil_r.
Qed.

Lemma written_with_name order n s f :
  written order (with_name n s) f = written order s f.
Proof. destruct f; reflexivity. Qed.

Lemma written_with_key order k s f :
  f <> key_name -> written order (with_key k s) f = written order s f.
Proof. intros H. destruct f; try reflexivity. now contradiction H. Qed.

Lemma written_key_name order k s :
  written order (with_key k s) key_name = lit ",'key_name':" +:+ quoted k.
Proof.
  unfold written. cbn [wire_name wire_value wire_tail with_key Server.Key].
  now autorewrite with texts.
Qed.

Lemma MarshalJSON_never_panics_aux order s :
  exists ev payload err, MarshalJSON order s = (ev, Returns (payload, err)).
Proof.
  destruct (validate s) as [e|] eqn:Hv.
  - eexists _, _, _. exact (MarshalJSON_invalid order s e Hv).
  - destruct (MarshalJSON_valid_head order s Hv) as [rest E].
    eexists _, _, _. exact E.
Qed.

(** The path [baseComputeRequest] builds: the compute URL, the tenant,
    a slash and the resource. *)
Lemma Sprintf_path (url tenant resource : string) :
  Sprintf "%s%s/%s" [a_s url; a_s tenant; a_s resource]
  = url +:+ tenant +:+ "/" +:+ resource.
Proof. cbn. now autorewrite with texts. Qed.

Lemma Sprintf_servers (server_id : string) :
  Sprintf "servers/%s" [a_s server_id] = "servers/" +:+ server_id.
Proof. cbn. now autorewrite with texts. Qed.

Lemma Sprintf_action (server_id : string) :
  Sprintf "servers/%s/action" [a_s server_id]
  = "servers/" +:+ server_id +:+ "/action".
Proof. cbn. now autorewrite with texts. Qed.

Lemma Sprintf_images (image_id : string) :
  Sprintf "images/%s" [a_s image_id] = "images/" +:+ image_id.
Proof. cbn. now autorewrite with texts. Qed.

(** ** Reading a request back from the tokens *)

Lemma FormatInt_inj z1 z2 : FormatInt z1 = FormatInt z2 -> z1 = z2.
Proof.
  unfold FormatInt. intros H. apply DecimalZ.to_int_inj.
  assert (Hn : forall z, Z.to_int z <> Pos Nil /\ Z.to_int z <> Neg Nil).
  { intros [|p|p]; cbn [Z.to_int]; split; try discriminate;
      intros X; injection X as X;
      now apply DecimalPos.Unsigned.to_uint_nonnil in X. }
  destruct (Hn z1) as [A1 B1], (Hn z2) as [A2 B2].
  pose proof (NilZero.isi _ A1 B1) as E1.
  pose proof (NilZero.isi _ A2 B2) as E2.
  rewrite H in E1. congruence.
Qed.

Lemma wire_name_inj f g : wire_name f = wire_name g -> f = g.
Proof. destruct f, g; intros H; try reflexivity; discriminate H. Qed.

Lemma concat_filter {A B} (e : A -> bool) (g : A -> list B) (l : list A) :
  concat (map g (List.filter e l))
  = concat (map (fun x => if e x then g x else []) l).
Proof.
  induction l as [|x l IH]; [reflexivity|]. cbn [List.filter map concat].
  destruct (e x); cbn [map concat app]; now rewrite IH.
Qed.

Lemma rest_tokens_heads order s l : heads l (rest_tokens order s l).
Proof.
  unfold rest_tokens. induction l as [|f l IH]; [left; now eexists|].
  cbn [map concat]. destruct (emit s f).
  - right. exists f. eexists. split; [now left | reflexivity].
  - cbn [app]. destruct IH as [IH | (g & rest & Hg & IH)]; [now left|].
    right. exists g, rest. split; [now right | exact IH].
Qed.

(** The items of a collection can be read back one by one. *)
Lemma joined_tokens_inj {A B} (g : A -> list token) (v : A -> B)
    (close : token) :
  close <> TComma ->
  (forall a b Y1 Y2, (g a ++ Y1 = g b ++ Y2)%list -> v a = v b /\ Y1 = Y2) ->
  forall l1 l2 X1 X2,
    l1 <> [] -> l2 <> [] ->
    (joined_tokens close (map g l1) ++ X1
     = joined_tokens close (map g l2) ++ X2)%list ->
    map v l1 = map v l2 /\ X1 = X2.
Proof.
  intros Hc Hg. induction l1 as [|a l1 IH]; intros l2 X1 X2 H1 H2 E;
    [now contradiction H1|].
  destruct l2 as [|b l2]; [now contradiction H2|].
  destruct l1 as [|a' l1], l2 as [|b' l2].
  - cbn [map joined_tokens] in E. rewrite <- !app_assoc in E.
    apply Hg in E as [Hv E]. injection E as E. cbn [map].
    now rewrite Hv.
  - change (joined_tokens close (map g (b :: b' :: l2)))
      with (g b ++ TComma :: joined_tokens close (map g (b' :: l2)))%list
      in E.
    cbn [map joined_tokens] in E. rewrite <- !app_assoc in E.
    apply Hg in E as [_ E]. injection E as E _. now contradiction Hc.
  - change (joined_tokens close (map g (a :: a' :: l1)))
      with (g a ++ TComma :: joined_tokens close (map g (a' :: l1)))%list
      in E.
    cbn [map joined_tokens] in E. rewrite <- !app_assoc in E.
    apply Hg in E as [_ E]. injection E as E _. symmetry in E.
    now contradiction Hc.
  - change (joined_tokens close (map g (a :: a' :: l1)))
      with (g a ++ TComma :: joined_tokens close (map g (a' :: l1)))%list
      in E.
    change (joined_tokens close (map g (b :: b' :: l2)))
      with (g b ++ TComma :: joined_tokens close (map g (b' :: l2)))%list
      in E.
    rewrite <- !app_assoc in E. apply Hg in E as [Hv E].
    cbn [app] in E. injection E as E.
    destruct (IH (b' :: l2) X1 X2 ltac:(discriminate) ltac:(discriminate) E)
      as [E1 E2].
    split; [|exact E2]. cbn [map] in *. now rewrite Hv, E1.
Qed.

Lemma entry_tokens_inj (a b : string * string) (Y1 Y2 : list token) :
  (entry_tokens a ++ Y1 = entry_tokens b ++ Y2)%list -> a = b /\ Y1 = Y2.
Proof.
  destruct a as [k1 v1], b as [k2 v2]. unfold entry_tokens. cbn.
  intros H. injection H as -> -> ->. now split.
Qed.

Lemma group_tokens_inj (a b : IDLink.t) (Y1 Y2 : list token) :
  (group_tokens a ++ Y1 = group_tokens b ++ Y2)%list ->
  IDLink.Name a = IDLink.Name b /\ Y1 = Y2.
Proof.
  unfold group_tokens. cbn. intros H. injection H as -> ->. now split.
Qed.

(** The value of a written field ends where its tokens end. *)
Lemma value_tokens_split order1 order2 s1 s2 f X1 X2 :
  (f = metadata -> order1 <> [] /\ order2 <> []) ->
  (f = security_groups ->
   SecurityGroups s1 <> [] /\ SecurityGroups s2 <> []) ->
  (value_tokens order1 s1 f ++ X1 = value_tokens order2 s2 f ++ X2)%list ->
  value_view order1 s1 f = value_view order2 s2 f /\ X1 = X2.
Proof.
  intros Hm Hg E. destruct f; cbn [value_tokens value_view app] in *;
    try (injection E as E1 E2; now rewrite ?E1, ?E2);
    try (injection E as E1; now rewrite ?E1).
  - injection E as E. destruct (Hm eq_refl) as [N1 N2].
    apply (joined_tokens_inj entry_tokens id TRBrace) in E
      as [E1 E2]; try assumption; try discriminate.
    + rewrite !map_id in E1. now rewrite E1.
    + intros a b Y1 Y2 H. now apply entry_tokens_inj.
  - injection E as E. destruct (Hg eq_refl) as [N1 N2].
    apply (joined_tokens_inj group_tokens IDLink.Name TRBracket) in E
      as [E1 E2]; try assumption; try discriminate.
    + now rewrite E1.
    + intros a b Y1 Y2 H. now apply group_tokens_inj.
Qed.

Lemma field_tokens_not_rest order1 order2 s1 s2 f l X :
  ~ In f l ->
  (field_tokens order1 s1 f ++ X)%list <> rest_tokens order2 s2 l.
Proof.
  intros Hf E.
  destruct (rest_tokens_heads order2 s2 l) as [[r H] | (g & r & Hg & H)];
    rewrite H in E; unfold field_tokens in E; cbn [app] in E.
  - discriminate E.
  - injection E as E _. apply wire_name_inj in E. subst g. now apply Hf.
Qed.

(** The written fields and their values can be read back from the
    tokens that follow the required fields. *)
Lemma rest_tokens_inj order1 order2 s1 s2 l :
  List.NoDup l ->
  (emit s1 metadata = true -> order1 <> []) ->
  (emit s2 metadata = true -> order2 <> []) ->
  rest_tokens order1 s1 l = rest_tokens order2 s2 l ->
  forall f, In f l ->
    emit s1 f = emit s2 f
    /\ (emit s1 f = true -> value_view order1 s1 f = value_view order2 s2 f).
Proof.
  intros Hnd H1 H2. induction l as [|g l IH]; intros E f Hf; [destruct Hf|].
  apply List.NoDup_cons_iff in Hnd as [Hg Hnd].
  assert (Hstep : emit s1 g = emit s2 g
                  /\ (emit s1 g = true ->
                      value_view order1 s1 g = value_view order2 s2 g)
                  /\ rest_tokens order1 s1 l = rest_tokens order2 s2 l).
  { unfold rest_tokens in E. cbn [map concat] in E.
    rewrite <- !app_assoc in E.
    change (concat (map (fun f => if emit s1 f then field_tokens order1 s1 f
                                   else []) l) ++ [TRBrace; TRBrace])%list
      with (rest_tokens order1 s1 l) in E.
    change (concat (map (fun f => if emit s2 f then field_tokens order2 s2 f
                                   else []) l) ++ [TRBrace; TRBrace])%list
      with (rest_tokens order2 s2 l) in E.
    destruct (emit s1 g) eqn:E1, (emit s2 g) eqn:E2.
    - unfold field_tokens in E. rewrite <- !app_assoc in E.
      cbn [app] in E. injection E as E.
      apply value_tokens_split in E as [Ev E].
      + apply app_inv_head in E. now repeat split.
      + intros ->. split; [now apply H1 | now apply H2].
      + intros ->. cbn [emit] in E1, E2. split; intros X;
          rewrite X in *; discriminate.
    - exfalso. now apply field_tokens_not_rest in E.
    - exfalso. symmetry in E. now apply field_tokens_not_rest in E.
    - cbn [app] in E. repeat split; [discriminate | exact E]. }
  destruct Hstep as (Ha & Hb & Hc).
  destruct Hf as [<- | Hf]; [now split|]. now apply IH.
Qed.

(** ** The members of a payload *)

Lemma plain_partly_set : plain_request partly_set.
Proof.
  unfold plain_request. cbn [partly_set Name Key Personality Metadata
                               SecurityGroups].
  split; [reflexivity|]. split; [reflexivity|]. split; [reflexivity|].
  split.
  - intros k v H. apply lookup_singleton_Some in H as [<- <-].
    split; reflexivity.
  - repeat constructor.
Qed.

Lemma joined_tokens_cons close x y l :
  joined_tokens close (x :: y :: l)
  = (x ++ TComma :: joined_tokens close (y :: l))%list.
Proof. reflexivity. Qed.

(** What follows a field in a payload: a separator or the closing
    brace. *)
Lemma fields_head order s fs :
  exists t r,
    (concat (map (field_tokens order s) fs) ++ [TRBrace; TRBrace])%list
    = t :: r
    /\ (t = TComma \/ t = TRBrace).
Proof.
  destruct fs as [|f fs].
  - exists TRBrace, [TRBrace]. split; [reflexivity | now right].
  - exists TComma. eexists. split; [reflexivity | now left].
Qed.

(** A string that no colon follows is a value, not a member name. *)
Lemma keys_at_value target d k t r :
  t = TComma \/ t = TRBrace ->
  keys_at target d (TString k :: t :: r) = keys_at target d (t :: r).
Proof. intros [-> | ->]; reflexivity. Qed.

Lemma keys_at_entries order rest :
  order <> [] ->
  keys_at 2 3 (joined_tokens TRBrace (map entry_tokens order) ++ rest)
  = keys_at 2 2 rest.
Proof.
  induction order as [|kv order IH]; [contradiction|]. intros _.
  destruct order as [|kv' order']; [reflexivity|].
  cbn [map]. rewrite joined_tokens_cons.
  change (keys_at 2 3
            (joined_tokens TRBrace (map entry_tokens (kv' :: order')) ++ rest)
          = keys_at 2 2 rest).
  now apply IH.
Qed.

Lemma keys_at_groups groups rest :
  groups <> [] ->
  keys_at 2 3 (joined_tokens TRBracket (map group_tokens groups) ++ rest)
  = keys_at 2 2 rest.
Proof.
  induction groups as [|sg groups IH]; [contradiction|]. intros _.
  destruct groups as [|sg' groups']; [reflexivity|].
  cbn [map]. rewrite joined_tokens_cons.
  change (keys_at 2 3
            (joined_tokens TRBracket (map group_tokens (sg' :: groups'))
               ++ rest)
          = keys_at 2 2 rest).
  now apply IH.
Qed.

(** The tokens of a field add its name, and nothing else, to the member
    names. *)
Lemma keys_at_field order s f t r :
  t = TComma \/ t = TRBrace ->
  (f = metadata -> order <> []) ->
  (f = security_groups -> SecurityGroups s <> []) ->
  keys_at 2 2 (field_tokens order s f ++ t :: r)
  = wire_name f :: keys_at 2 2 (t :: r).
Proof.
  intros Ht Hm Hg. unfold field_tokens.
  destruct f; cbn [value_tokens tail_tokens wire_name app].
  - reflexivity.
  - destruct Ht as [-> | ->]; reflexivity.
  - reflexivity.
  - reflexivity.
  - reflexivity.
  - reflexivity.
  - rewrite app_nil_r. transitivity
      ("metadata"
       :: keys_at 2 3 (joined_tokens TRBrace (map entry_tokens order)
                         ++ t :: r)); [reflexivity|].
    f_equal. now apply keys_at_entries, Hm.
  - rewrite app_nil_r. transitivity
      ("security_groups"
       :: keys_at 2 3 (joined_tokens TRBracket
                         (map group_tokens (SecurityGroups s))
                         ++ t :: r)); [reflexivity|].
    f_equal. now apply keys_at_groups, Hg.
Qed.

Lemma keys_at_fields order s fs :
  (In metadata fs -> order <> []) ->
  (In security_groups fs -> SecurityGroups s <> []) ->
  keys_at 2 2
    (concat (map (field_tokens order s) fs) ++ [TRBrace; TRBrace])%list
  = map wire_name fs.
Proof.
  induction fs as [|f fs IH]; intros Hm Hg; [reflexivity|].
  cbn [map concat]. rewrite <- app_assoc.
  destruct (fields_head order s fs) as (t & r & E & Ht). rewrite E.
  rewrite keys_at_field.
  - rewrite <- E. f_equal. apply IH.
    + intros H. apply Hm. now right.
    + intros H. apply Hg. now right.
  - exact Ht.
  - intros ->. apply Hm. now left.
  - intros ->. apply Hg. now left.
Qed.

(** The member names of a payload: the three required fields, then the
    optional fields written. *)
Lemma member_names_payload order s fs :
  (In metadata fs -> order <> []) ->
  (In security_groups fs -> SecurityGroups s <> []) ->
  member_names (payload_tokens order s fs)
  = (["flavorRef"; "imageRef"; "name"] ++ map wire_name fs)%list.
Proof.
  intros Hm Hg. unfold member_names, payload_tokens, required_tokens.
  rewrite <- (keys_at_fields order s fs Hm Hg).
  destruct (fields_head order s fs) as (t & r & E & Ht). rewrite E.
  destruct Ht as [-> | ->]; reflexivity.
Qed.

(** An optional field is among the member names exactly when it is
    among the fields written. *)
Lemma member_names_field f fs :
  In (wire_name f)
    (["flavorRef"; "imageRef"; "name"] ++ map wire_name fs)%list
  <-> In f fs.
Proof.
  rewrite in_app_iff, in_map_iff. split.
  - intros [H | (g & E & H)].
    + exfalso. cbn [In] in H.
      destruct H as [H | [H | [H | []]]]; destruct f; discriminate H.
    + apply wire_name_inj in E. now subst g.
  - intros H. right. now exists f.
Qed.

Lemma empty_collection_entries order rest :
  order <> [] ->
  empty_collection
    (TLBrace :: joined_tokens TRBrace (map entry_tokens order) ++ rest)
  = empty_collection rest.
Proof.
  intros Hne.
  assert (H : forall l, l <> [] ->
            exists k r, joined_tokens TRBrace (map entry_tokens l)
                        = TString k :: r
                        /\ empty_collection (r ++ rest)%list
                           = empty_collection rest).
  { induction l as [|kv l IH]; [contradiction|]. intros _.
    destruct l as [|kv' l'].
    - exists (fst kv). eexists. split; [reflexivity|].
      destruct rest as [|[] ?]; reflexivity.
    - destruct IH as (k & r & E & Hr); [discriminate|].
      exists (fst kv). eexists. split.
      + cbn [map]. rewrite joined_tokens_cons. reflexivity.
      + cbn [map] in E. rewrite E. cbn [app empty_collection]. exact Hr. }
  destruct (H order Hne) as (k & r & E & Hr). rewrite E.
  cbn [app empty_collection]. exact Hr.
Qed.

Lemma empty_collection_groups groups rest :
  groups <> [] ->
  empty_collection
    (TLBracket :: joined_tokens TRBracket (map group_tokens groups) ++ rest)
  = empty_collection rest.
Proof.
  intros Hne.
  assert (H : forall l, l <> [] ->
            exists r, joined_tokens TRBracket (map group_tokens l)
                      = TLBrace :: TString "name" :: r
                      /\ empty_collection (r ++ rest)%list
                         = empty_collection rest).
  { induction l as [|sg l IH]; [contradiction|]. intros _.
    destruct l as [|sg' l'].
    - eexists. split; [reflexivity|].
      destruct rest as [|[] ?]; reflexivity.
    - destruct IH as (r & E & Hr); [discriminate|].
      eexists. split.
      + cbn [map]. rewrite joined_tokens_cons. reflexivity.
      + cbn [map] in E. rewrite E. cbn [app empty_collection]. exact Hr. }
  destruct (H groups Hne) as (r & E & Hr). rewrite E.
  cbn [app empty_collection]. exact Hr.
Qed.

Lemma empty_collection_field order s f rest :
  (f = metadata -> order <> []) ->
  (f = security_groups -> SecurityGroups s <> []) ->
  empty_collection (field_tokens order s f ++ rest)
  = empty_collection rest.
Proof.
  intros Hm Hg. unfold field_tokens.
  destruct f; cbn [value_tokens tail_tokens app empty_collection];
    try reflexivity.
  - rewrite app_nil_r. now apply empty_collection_entries, Hm.
  - rewrite app_nil_r. now apply empty_collection_groups, Hg.
Qed.

(** No collection of a payload is empty. *)
Lemma empty_collection_payload order s fs :
  (In metadata fs -> order <> []) ->
  (In security_groups fs -> SecurityGroups s <> []) ->
  empty_collection (payload_tokens order s fs) = false.
Proof.
  intros Hm Hg. unfold payload_tokens, required_tokens.
  cbn [app empty_collection].
  induction fs as [|f fs IH]; [reflexivity|].
  cbn [map concat]. rewrite <- app_assoc, empty_collection_field.
  - apply IH.
    + intros H. apply Hm. now right.
    + intros H. apply Hg. now right.
  - intros ->. apply Hm. now left.
  - intros ->. apply Hg. now left.
Qed.

(** ** Double quotes and backslashes *)

Lemma list_sum_cons a l : list_sum (a :: l) = (a + list_sum l)%nat.
Proof. reflexivity. Qed.

Lemma quotes_app a b : quotes (a +:+ b) = (quotes a + quotes b)%nat.
Proof.
  induction a as [|c a IH]; [reflexivity|].
  cbn [String.append quotes]. rewrite IH. lia.
Qed.

Lemma contains_app c a b :
  contains c (a +:+ b) = contains c a || contains c b.
Proof.
  induction a as [|c' a IH]; [reflexivity|].
  cbn [String.append contains]. rewrite IH. now rewrite orb_assoc.
Qed.

Lemma digits_clean d :
  quotes (NilEmpty.string_of_uint d) = O
  /\ contains bslash (NilEmpty.string_of_uint d) = false.
Proof. induction d; cbn; (split; [apply IHd || reflexivity | apply IHd || reflexivity]). Qed.

Lemma FormatInt_clean z :
  quotes (FormatInt z) = O /\ contains bslash (FormatInt z) = false.
Proof.
  unfold FormatInt, NilZero.string_of_int, NilZero.string_of_uint.
  destruct (Z.to_int z) as [d | d].
  - destruct d; try (split; reflexivity);
      match goal with
      | |- context [NilEmpty.string_of_uint ?x] => apply (digits_clean x)
      end.
  - cbn [quotes contains]. change (Ascii.eqb "-" dquote) with false.
    change (Ascii.eqb bslash "-") with false. cbn [orb Nat.add].
    destruct d; try (split; reflexivity);
      match goal with
      | |- context [NilEmpty.string_of_uint ?x] => apply (digits_clean x)
      end.
Qed.

Lemma quotes_quoted x : quotes (quoted x) = (quotes x + 2)%nat.
Proof.
  unfold quoted. cbn [quotes]. rewrite quotes_app. cbn [quotes].
  change (Ascii.eqb dquote dquote) with true. cbv iota. lia.
Qed.

Lemma contains_quoted x :
  contains bslash (quoted x) = contains bslash x.
Proof.
  unfold quoted. cbn [contains]. rewrite contains_app. cbn [contains].
  change (Ascii.eqb bslash dquote) with false. cbn [orb].
  now rewrite orb_false_r.
Qed.

Lemma quotes_joined close items :
  quotes close = O ->
  quotes (joined close items) = list_sum (map quotes items).
Proof.
  intros Hc. induction items as [|x items IH]; [reflexivity|].
  destruct items as [|y items].
  - cbn [joined map list_sum fold_right]. rewrite quotes_app, Hc. lia.
  - change (joined close (x :: y :: items))
      with (x +:+ "," +:+ joined close (y :: items)).
    rewrite !quotes_app, IH. cbn [map]. rewrite !list_sum_cons.
    simpl quotes. lia.
Qed.

Lemma contains_joined close items :
  contains bslash close = false ->
  (forall x, In x items -> contains bslash x = false) ->
  contains bslash (joined close items) = false.
Proof.
  intros Hc. induction items as [|x items IH]; intros H; [reflexivity|].
  destruct items as [|y items].
  - cbn [joined]. rewrite contains_app, Hc, (H x) by now left. reflexivity.
  - change (joined close (x :: y :: items))
      with (x +:+ "," +:+ joined close (y :: items)).
    rewrite !contains_app, (H x) by now left.
    rewrite IH by (intros z Hz; apply H; now right). reflexivity.
Qed.

Lemma quotes_entries order :
  list_sum (map quotes (map entry order))
  = (list_sum (map (fun kv => quotes (fst kv) + quotes (snd kv))%nat order)
     + 2 * (2 * List.length order))%nat.
Proof.
  induction order as [|kv order IH]; [reflexivity|].
  cbn [map List.length]. rewrite !list_sum_cons, IH. unfold entry.
  rewrite !quotes_app, !quotes_quoted. simpl quotes. lia.
Qed.

Lemma quotes_groups groups :
  list_sum (map quotes (map group groups))
  = (list_sum (map (fun sg => quotes (IDLink.Name sg)) groups)
     + 2 * (2 * List.length groups))%nat.
Proof.
  induction groups as [|sg groups IH]; [reflexivity|].
  cbn [map List.length]. rewrite !list_sum_cons, IH. unfold group.
  rewrite !quotes_app, !quotes_quoted. simpl quotes. lia.
Qed.

(** The double quotes of a field: those of its texts, and an even
    number of the encoder's own. *)
Lemma quotes_written order s f :
  exists k, quotes (written order s f)
            = (field_quotes order s f + 2 * k)%nat.
Proof.
  unfold written.
  destruct f; cbn [wire_name wire_value wire_tail field_quotes];
    rewrite ?quotes_app, ?quotes_quoted, ?(proj1 (FormatInt_clean _)).
  - exists 2%nat. simpl quotes. lia.
  - exists 2%nat. simpl quotes. lia.
  - exists 1%nat. simpl quotes. lia.
  - exists 1%nat. simpl quotes. lia.
  - exists 1%nat. simpl quotes. lia.
  - exists 2%nat. simpl quotes. lia.
  - rewrite quotes_joined by reflexivity. rewrite quotes_entries.
    exists (1 + 2 * List.length order)%nat. simpl quotes. lia.
  - rewrite quotes_joined by reflexivity. rewrite quotes_groups.
    exists (1 + 2 * List.length (SecurityGroups s))%nat. simpl quotes. lia.
Qed.

(** A field that is not written has no text. *)
Lemma field_quotes_silent order s f :
  map_range (Metadata s) order ->
  emit s f = false -> field_quotes order s f = O.
Proof.
  intros Hr. destruct f; cbn [emit field_quotes]; try reflexivity.
  - rewrite negb_false_iff, is_empty_true. now intros ->.
  - rewrite negb_false_iff, is_empty_true. now intros ->.
  - rewrite negb_false_iff, Nat.eqb_eq. intros H.
    apply map_range_length in Hr. rewrite H in Hr.
    now destruct order.
  - rewrite negb_false_iff, Nat.eqb_eq. intros H.
    now destruct (SecurityGroups s).
Qed.

Lemma quotes_field order s f :
  map_range (Metadata s) order ->
  exists k, quotes (opt (emit s f) (written order s f))
            = (field_quotes order s f + 2 * k)%nat.
Proof.
  intros Hr. destruct (emit s f) eqn:E; cbn [opt].
  - apply quotes_written.
  - exists O. rewrite (field_quotes_silent order s f Hr E). reflexivity.
Qed.

Lemma quotes_optional order s :
  map_range (Metadata s) order ->
  exists k, quotes (optional order s) = (other_quotes order s + 2 * k)%nat.
Proof.
  intros Hr. unfold optional. rewrite flat_filter.
  cbn [optional_fields map flat]. rewrite !quotes_app.
  destruct (quotes_field order s personality Hr) as (k1 & ->).
  destruct (quotes_field order s key_name Hr) as (k2 & ->).
  destruct (quotes_field order s config_drive Hr) as (k3 & ->).
  destruct (quotes_field order s min_count Hr) as (k4 & ->).
  destruct (quotes_field order s max_count Hr) as (k5 & ->).
  destruct (quotes_field order s user_data Hr) as (k6 & ->).
  destruct (quotes_field order s metadata Hr) as (k7 & ->).
  destruct (quotes_field order s security_groups Hr) as (k8 & ->).
  exists (k1 + k2 + k3 + k4 + k5 + k6 + k7 + k8)%nat.
  unfold other_quotes. cbn [field_quotes quotes]. lia.
Qed.

Lemma quotes_required s :
  quotes (required s) = (quotes (Name s) + 2 * 5)%nat.
Proof.
  unfold required.
  rewrite !quotes_app, quotes_quoted, !(proj1 (FormatInt_clean _)).
  simpl quotes. lia.
Qed.

(** The double quotes of a payload: those of the interpolated texts,
    and an even number of the encoder's own. *)
Lemma quotes_payload order s :
  map_range (Metadata s) order ->
  exists k, quotes (required s +:+ optional order s +:+ "}}")
            = (text_quotes order s + 2 * k)%nat.
Proof.
  intros Hr. destruct (quotes_optional order s Hr) as (k & E).
  exists (5 + k)%nat. rewrite !quotes_app, quotes_required, E.
  unfold text_quotes. simpl quotes. lia.
Qed.

Lemma contains_flat c l :
  (forall x, In x l -> contains c x = false) -> contains c (flat l) = false.
Proof.
  induction l as [|x l IH]; intros H; [reflexivity|].
  cbn [flat]. rewrite contains_app, (H x) by now left.
  apply IH. intros y Hy. apply H. now right.
Qed.

Lemma map_range_without_backslash s order :
  others_without_backslash s -> map_range (Metadata s) order ->
  forall kv, In kv order ->
    contains bslash (fst kv) = false /\ contains bslash (snd kv) = false.
Proof.
  intros (_ & _ & Hm & _) Hr [k v] Hkv. apply (Hm k v).
  apply elem_of_map_to_list. unfold map_range in Hr. rewrite <- Hr.
  now apply list_elem_of_In.
Qed.

(** The encoder writes no backslash of its own. *)
Lemma written_without_backslash order s f :
  others_without_backslash s -> map_range (Metadata s) order ->
  contains bslash (written order s f) = false.
Proof.
  intros Ho Hr. pose proof (map_range_without_backslash s order Ho Hr) as Hm.
  destruct Ho as (Hk & Hp & _ & Hg). unfold written.
  destruct f; cbn [wire_name wire_value wire_tail];
    rewrite ?contains_app, ?contains_quoted, ?(proj2 (FormatInt_clean _)),
      ?Hk, ?Hp; try reflexivity.
  - rewrite contains_joined; [reflexivity | reflexivity |].
    intros x Hx. apply in_map_iff in Hx as (kv & <- & Hkv).
    unfold entry. rewrite !contains_app, !contains_quoted.
    destruct (Hm kv Hkv) as [-> ->]. reflexivity.
  - rewrite contains_joined; [reflexivity | reflexivity |].
    intros x Hx. apply in_map_iff in Hx as (sg & <- & Hsg).
    unfold group. rewrite !contains_app, contains_quoted.
    rewrite List.Forall_forall in Hg. rewrite (Hg sg Hsg). reflexivity.
Qed.

Lemma optional_without_backslash order s :
  others_without_backslash s -> map_range (Metadata s) order ->
  contains bslash (optional order s +:+ "}}") = false.
Proof.
  intros Ho Hr. rewrite contains_app. unfold optional.
  rewrite contains_flat; [reflexivity|].
  intros x Hx. apply in_map_iff in Hx as (f & <- & _).
  now apply written_without_backslash.
Qed.

(** *** The scanner on a text without backslash *)

Lemma lstart_parity c m ts :
  lstart c = Some (m, ts) ->
  steady m = true /\ in_string m = Ascii.eqb c dquote.
Proof.
  intros H. destruct (Ascii.eqb c dquote) eqn:Q.
  - apply Ascii.eqb_eq in Q. subst c. vm_compute in H.
    injection H as <- <-. split; reflexivity.
  - unfold lstart in H. rewrite Q in H.
    repeat match type of H with
           | (if ?b then _ else _) = _ => destruct b
           end;
      try discriminate H; injection H as <- <-; split; reflexivity.
Qed.

Lemma nstep_go_quote st c st' :
  nstep st c = NGo st' -> Ascii.eqb c dquote = false.
Proof.
  destruct (Ascii.eqb c dquote) eqn:Q; [|reflexivity].
  apply Ascii.eqb_eq in Q. subst c.
  destruct st; vm_compute; intros H; discriminate H.
Qed.

(** One byte that is not a backslash: the scanner stays steady, and
    enters or leaves a string exactly at a double quote. *)
Lemma lstep_parity m c m' ts :
  steady m = true -> Ascii.eqb c bslash = false ->
  lstep m c = Some (m', ts) ->
  steady m' = true
  /\ in_string m' = xorb (in_string m) (Ascii.eqb c dquote).
Proof.
  intros Hs Hb H.
  destruct m as [|acc|acc|acc n|st acc|acc rest]; try discriminate Hs;
    cbn [lstep] in H; cbn [in_string].
  - rewrite xorb_false_l. now apply lstart_parity in H.
  - rewrite Hb in H. destruct (Ascii.eqb c dquote).
    + injection H as <- <-. split; reflexivity.
    + destruct (nat_of_ascii c <? 32)%nat; [discriminate H|].
      injection H as <- <-. split; reflexivity.
  - rewrite xorb_false_l. destruct (nstep st c) eqn:N.
    + injection H as <- <-. apply nstep_go_quote in N. rewrite N.
      split; reflexivity.
    + destruct (lstart c) as [[m1 t1]|] eqn:L; [|discriminate H].
      injection H as <- <-. now apply lstart_parity in L.
    + discriminate H.
  - rewrite xorb_false_l.
    destruct rest as [|r rest']; [discriminate H|].
    destruct (Ascii.eqb c r) eqn:E; [|discriminate H].
    apply Ascii.eqb_eq in E. subst r.
    cbn [steady contains] in Hs. rewrite negb_true_iff in Hs.
    apply orb_false_iff in Hs as [Hq Hrest].
    rewrite Ascii.eqb_sym, Hq.
    destruct rest'; injection H as <- <-; split; try reflexivity.
    cbn [steady]. now rewrite Hrest.
Qed.

(** The same for a whole text: the scanner ends inside a string exactly
    when the text has turned it an odd number of times. *)
Lemma lrun_parity x :
  forall m m' ts,
    steady m = true -> contains bslash x = false ->
    lrun m x = Some (m', ts) ->
    steady m' = true
    /\ in_string m' = xorb (in_string m) (Nat.odd (quotes x)).
Proof.
  induction x as [|c x IH]; intros m m' ts Hs Hb H.
  - injection H as <- <-. split; [exact Hs|]. cbn [quotes Nat.odd].
    now rewrite xorb_false_r.
  - cbn [contains] in Hb. apply orb_false_iff in Hb as [Hc Hx].
    rewrite Ascii.eqb_sym in Hc. cbn [lrun] in H.
    destruct (lstep m c) as [[m1 t1]|] eqn:S1; [|discriminate H].
    destruct (lrun m1 x) as [[m2 t2]|] eqn:R; [|discriminate H].
    injection H as <- <-.
    destruct (lstep_parity m c m1 t1 Hs Hc S1) as [Hs1 Hi1].
    destruct (IH m1 m2 t2 Hs1 Hx R) as [Hs2 Hi2].
    split; [exact Hs2|]. rewrite Hi2, Hi1. cbn [quotes].
    destruct (Ascii.eqb c dquote).
    + change (1 + quotes x)%nat with (S (quotes x)).
      rewrite Nat.odd_succ, <- Nat.negb_odd.
      destruct (in_string m), (Nat.odd (quotes x)); reflexivity.
    + cbn [Nat.add]. now rewrite xorb_false_r.
Qed.

(** A text without backslash and with an odd number of double quotes
    ends inside a string: it has no tokens. *)
Lemma lex_odd_quotes x :
  contains bslash x = false -> Nat.odd (quotes x) = true -> lex x = None.
Proof.
  intros Hb Ho. unfold lex.
  destruct (lrun LDefault x) as [[m ts]|] eqn:R; [|reflexivity].
  destruct (lrun_parity x LDefault m ts eq_refl Hb R) as [_ Hi].
  rewrite Ho in Hi. destruct m; try discriminate Hi. reflexivity.
Qed.

(** A backslash inside a string takes the double quote behind it into
    the string; when the quotes before are odd and those after are
    even, the text ends inside that string. *)
Lemma lex_escaped_quote x y :
  contains bslash x = false -> Nat.odd (quotes x) = true ->
  contains bslash y = false -> Nat.odd (quotes y) = false ->
  lex (x +:+ String bslash (String dquote y)) = None.
Proof.
  intros Hbx Hox Hby Hoy. unfold lex. rewrite lrun_app.
  destruct (lrun LDefault x) as [[m1 t1]|] eqn:R1; [|reflexivity].
  destruct (lrun_parity x LDefault m1 t1 eq_refl Hbx R1) as [_ Hi1].
  rewrite Hox in Hi1. destruct m1 as [|acc| | | |]; try discriminate Hi1.
  cbn [lrun lstep]. change (Ascii.eqb bslash dquote) with false.
  change (Ascii.eqb bslash bslash) with true. cbv iota. cbn [lstep].
  change (is_escape dquote) with true. cbv iota.
  destruct (lrun (LString (snoc (snoc acc bslash) dquote)) y)
    as [[m2 t2]|] eqn:R2; [|reflexivity].
  destruct (lrun_parity y (LString (snoc (snoc acc bslash) dquote)) m2 t2
              eq_refl Hby R2) as [_ Hi2].
  rewrite Hoy in Hi2. destruct m2; try discriminate Hi2. reflexivity.
Qed.

Lemma required_without_backslash s :
  contains bslash (Name s) = false -> contains bslash (required s) = false.
Proof.
  intros H. unfold required.
  rewrite !contains_app, contains_quoted, !(proj2 (FormatInt_clean _)), H.
  reflexivity.
Qed.

Lemma quotes_none x : contains dquote x = false -> quotes x = O.
Proof.
  induction x as [|c x IH]; [reflexivity|]. cbn [contains quotes].
  intros H. apply orb_false_iff in H as [Hc Hx].
  rewrite Ascii.eqb_sym, Hc, (IH Hx). reflexivity.
Qed.

(** A text that ends in a backslash, between double quotes: the
    backslash stands before the closing quote. *)
Lemma quoted_escaped a u rest :
  (a +:+ quoted (u +:+ String bslash EmptyString)) +:+ rest
  = (a +:+ String dquote u) +:+ String bslash (String dquote rest).
Proof.
  unfold quoted. rewrite !append_assoc. f_equal.
  cbn [String.append]. f_equal. rewrite !append_assoc. reflexivity.
Qed.

(** The payload of a request whose name is [u] followed by a backslash:
    the text up to [u], then the backslash, the closing quote of the
    name and what the encoder writes behind it. *)
Lemma payload_escaped s u rest :
  Name s = u +:+ String bslash EmptyString ->
  required s +:+ rest
  = ((lit "{'server':{'flavorRef':" +:+ FormatInt (FlavorRef s)
        +:+ lit ",'imageRef':" +:+ FormatInt (ImageRef s)
        +:+ lit ",'name':") +:+ String dquote u)
      +:+ String bslash (String dquote rest).
Proof.
  intros E. rewrite <- quoted_escaped, <- E. unfold required.
  now rewrite !append_assoc.
Qed.

Lemma sample_without_backslash n :
  others_without_backslash (with_name n sample).
Proof.
  unfold others_without_backslash. cbn [with_name sample Key Personality
                                          Metadata SecurityGroups].
  split; [reflexivity|]. split; [reflexivity|]. split; [|constructor].
  intros k v H. rewrite lookup_empty in H. discriminate H.
Qed.

(** * The claims *)

(** ** C1: well-formedness of the payload *)

(** C1, on the code.  The format strings of personality and user_data
    end with a separator of their own.  When either field is the last
    one written, that separator stands before the closing brace; when
    another field follows, two separators stand side by side.  So every
    request that passes validation and writes one of the two fields
    yields a payload the recogniser rejects (stated for requests whose
    texts are plain, so that nothing else can be held responsible). *)
Theorem separator_dangles_after_personality :
  (forall (order : list (string * string)) (s : Server.t) (payload : string),
      valid s -> map_range (Metadata s) order -> plain_request s ->
      snd (MarshalJSON order s) = Returns (payload, None) ->
      Personality s <> EmptyString \/ UserData s <> EmptyString ->
      json_valid payload = false)
  /\ valid (with_personality "x" sample)
  /\ MarshalJSON [] (with_personality "x" sample)
     = ([], Returns (lit "{'server':{'flavorRef':100,'imageRef':1235,'name':'web','personality':'x',}}",
                     None))
  /\ json_valid (lit "{'server':{'flavorRef':100,'imageRef':1235,'name':'web','personality':'x',}}")
     = false
  /\ MarshalJSON [] (with_groups [named "default"] (with_personality "x" sample))
     = ([], Returns (lit "{'server':{'flavorRef':100,'imageRef':1235,'name':'web','personality':'x',,'security_groups':[{'name': 'default'}]}}",
                     None))
  /\ json_valid (lit "{'server':{'flavorRef':100,'imageRef':1235,'name':'web','personality':'x',,'security_groups':[{'name': 'default'}]}}")
     = false.
Proof.
  split; [|repeat split].
  intros order s payload Hv Hr Hp E H.
  destruct (plain_payload_well_formed order s payload Hv Hr Hp E) as [H1 H2].
  rewrite H2, H1. apply andb_false_iff.
  destruct H as [H|H]; [left | right]; now apply is_empty_false.
Qed.

Lemma separator_dangles_after_personality_witness :
  json_valid (lit "{'server':{'flavorRef':100,'imageRef':1235,'name':'web','personality':'x',}}")
  = false.
Proof.
  apply (proj1 separator_dangles_after_personality []
           (with_personality "x" sample)).
  - reflexivity.
  - by_visit.
  - by_plain.
  - reflexivity.
  - left. simpl. discriminate.
Defined.

(** ** C2: the value written for user_data *)

(** C2, on the code.  [Encode] is called with the text as destination
    and the empty slice as source: nothing is encoded, and the value
    written for user_data is the empty string whatever the text is.
    For the text hello the specification asks for aGVsbG8=. *)
Theorem user_data_is_written_empty :
  (forall (order : list (string * string)) (s : Server.t),
      valid s -> map_range (Metadata s) order ->
      UserData s <> EmptyString ->
      exists before after,
        MarshalJSON order s
        = (printed s,
           Returns (before +:+ lit ",'user_data': ''," +:+ after, None)))
  /\ MarshalJSON [] (with_user_data "hello" sample)
     = ([], Returns (lit "{'server':{'flavorRef':100,'imageRef':1235,'name':'web','user_data': '',}}",
                     None))
  /\ base64.EncodeToString "hello" = "aGVsbG8=".
Proof.
  split; [|split; reflexivity].
  intros order s Hv Hr Hu.
  rewrite (MarshalJSON_ok order s Hv Hr).
  exists (required s
          +:+ flat (map (fun f => opt (emit s f) (written order s f))
                      [personality; key_name; config_drive; min_count;
                       max_count])),
    (flat (map (fun f => opt (emit s f) (written order s f))
             [metadata; security_groups]) +:+ "}}").
  unfold optional. rewrite flat_filter. cbn [optional_fields map flat].
  replace (emit s user_data) with true
    by (symmetry; apply (emit_iff s); exact Hu).
  cbn [opt]. replace (written order s user_data) with (lit ",'user_data': '',")
    by reflexivity.
  autorewrite with texts. reflexivity.
Qed.

Lemma user_data_is_written_empty_witness :
  exists before after,
    MarshalJSON [] (with_user_data "hello" sample)
    = ([], Returns (before +:+ lit ",'user_data': ''," +:+ after, None)).
Proof.
  apply (proj1 user_data_is_written_empty [] (with_user_data "hello" sample)).
  - reflexivity.
  - by_visit.
  - simpl. discriminate.
Defined.

(** ** C3: validation *)

(** C3. The four rules are checked in the order flavor, image, name,
    personality and the first violated one decides the error, whatever
    the later fields hold; the four errors are pairwise different.
    Every failure returns an empty payload and happens before
    [CreateServer] hands anything to the transport: its run has no
    event and returns the same error. *)
Theorem validation_is_fail_fast :
  List.NoDup [InvalidFlavor; MissingImage; MissingName; PersonalityTooLarge]
  /\ forall (order : list (string * string)) (s : Server.t),
    (~ (100 <= FlavorRef s <= 105) ->
     MarshalJSON order s = ([], Returns (EmptyString, Some InvalidFlavor)))
    /\ (100 <= FlavorRef s <= 105 -> ImageRef s = 0 ->
        MarshalJSON order s = ([], Returns (EmptyString, Some MissingImage)))
    /\ (100 <= FlavorRef s <= 105 -> ImageRef s <> 0 ->
        Name s = EmptyString ->
        MarshalJSON order s = ([], Returns (EmptyString, Some MissingName)))
    /\ (100 <= FlavorRef s <= 105 -> ImageRef s <> 0 ->
        Name s <> EmptyString ->
        (255 < String.length (Personality s))%nat ->
        MarshalJSON order s
        = ([], Returns (EmptyString, Some PersonalityTooLarge)))
    /\ (forall payload e,
          snd (MarshalJSON order s) = Returns (payload, Some e) ->
          MarshalJSON order s = ([], Returns (EmptyString, Some e))
          /\ forall Access TenantID COMPUTE_URL baseRequest
                    ServerResponse json_Unmarshal (a : Access),
               CreateServer Access TenantID COMPUTE_URL baseRequest
                 ServerResponse json_Unmarshal order a s
               = ([], Returns (None, Some e))).
Proof.
  split; [exact errors_distinct|]. intros order s.
  destruct (validate_cases s)
    as [[E H]|[[E H]|[[E H]|[[E H]|[E H]]]]];
    repeat split; intros;
    try (apply MarshalJSON_invalid; rewrite E; reflexivity);
    try (exfalso; tauto); try (exfalso; lia);
    try (exfalso; destruct H as (_ & _ & H & _); congruence);
    match goal with
    | X : snd (MarshalJSON _ _) = Returns (_, Some _) |- _ =>
        apply MarshalJSON_error in X;
        try (unfold CreateServer);
        rewrite (MarshalJSON_invalid _ _ _ X); reflexivity
    end.
Qed.

Lemma validation_is_fail_fast_witness :
  MarshalJSON [] (with_flavor 99 sample)
  = ([], Returns (EmptyString, Some InvalidFlavor))
  /\ MarshalJSON [] (with_image 0 sample)
     = ([], Returns (EmptyString, Some MissingImage))
  /\ MarshalJSON [] (with_name EmptyString sample)
     = ([], Returns (EmptyString, Some MissingName))
  /\ MarshalJSON [] (with_personality (filler 256) sample)
     = ([], Returns (EmptyString, Some PersonalityTooLarge)).
Proof.
  split; [|split; [|split]].
  - apply (proj2 validation_is_fail_fast [] (with_flavor 99 sample)).
    simpl. lia.
  - apply (proj2 validation_is_fail_fast [] (with_image 0 sample)).
    + by_lia.
    + reflexivity.
  - apply (proj2 validation_is_fail_fast [] (with_name EmptyString sample)).
    + by_lia.
    + by_lia.
    + reflexivity.
  - apply (proj2 validation_is_fail_fast []
             (with_personality (filler 256) sample)).
    + by_lia.
    + by_lia.
    + simpl. discriminate.
    + vm_compute. lia.
Defined.

(** ** C4: the personality cap *)




(** ** C5: optional fields *)

(** C5, as stated, at a request whose name closes its own string and
    goes on with a member: web","key_name":"mine.  The request passes
    validation and its key is empty, so the emit condition of key_name
    does not hold; the name is copied as it is, and the payload is a
    well-formed JSON object with a key_name member. *)
Lemma key_name_member_without_key :
  let s := with_name name_with_member sample in
  valid s
  /\ Key s = EmptyString
  /\ MarshalJSON [] s
     = ([], Returns (lit "{'server':{'flavorRef':100,'imageRef':1235,'name':'web','key_name':'mine'}}",
                     None))
  /\ json_object (lit "{'server':{'flavorRef':100,'imageRef':1235,'name':'web','key_name':'mine'}}")
     = true
  /\ exists ts,
       lex (lit "{'server':{'flavorRef':100,'imageRef':1235,'name':'web','key_name':'mine'}}")
       = Some ts
       /\ member_names ts = ["flavorRef"; "imageRef"; "name"; "key_name"]
       /\ ~ (In "key_name" (member_names ts) <-> Key s <> EmptyString).
Proof.
  cbv zeta. split; [reflexivity|]. split; [reflexivity|].
  split; [reflexivity|]. split; [reflexivity|].
  eexists. split; [vm_compute; reflexivity|]. split; [reflexivity|].
  intros [H _]. apply H; [|reflexivity].
  cbn. right. right. right. left. reflexivity.
Qed.

(** C5, amended: for requests whose interpolated texts are plain (no
    double quote, no backslash, no control character).  The payload of
    such a request that passes validation splits into tokens, and the
    members of its server object are the three required fields followed
    by the optional fields whose emit condition holds, in table order
    and nothing else.  So each optional field is a member exactly when
    its emit condition holds, and no collection of the payload is
    empty. *)
Theorem optional_field_emitted_iff_condition :
  forall (order : list (string * string)) (s : Server.t),
    valid s -> map_range (Metadata s) order -> plain_request s ->
    exists (payload : string) (ts : list token),
      MarshalJSON order s = (printed s, Returns (payload, None))
      /\ lex payload = Some ts
      /\ member_names ts
         = (["flavorRef"; "imageRef"; "name"]
            ++ map wire_name (List.filter (emit s) optional_fields))%list
      /\ (In "personality" (member_names ts)
          <-> Personality s <> EmptyString)
      /\ (In "key_name" (member_names ts) <-> Key s <> EmptyString)
      /\ (In "config_drive" (member_names ts) <-> ConfigDrive s = true)
      /\ (In "min_count" (member_names ts) <-> 0 < MinCount s)
      /\ (In "max_count" (member_names ts) <-> 0 < MaxCount s)
      /\ (In "user_data" (member_names ts) <-> UserData s <> EmptyString)
      /\ (In "metadata" (member_names ts) <-> Metadata s <> ∅)
      /\ (In "security_groups" (member_names ts)
          <-> SecurityGroups s <> [])
      /\ empty_collection ts = false.
Proof.
  intros order s Hv Hr Hp.
  exists (required s +:+ optional order s +:+ "}}"),
    (payload_tokens order s (List.filter (emit s) optional_fields)).
  destruct (emit_iff s) as (E1 & E2 & E3 & E4 & E5 & E6 & E7 & E8).
  assert (Hin : forall f, In f (List.filter (emit s) optional_fields)
                          <-> emit s f = true).
  { intros f. rewrite filter_In. split; [tauto|]. intros H. split; [|exact H].
    unfold optional_fields. cbn [In].
    destruct f; repeat first [left; reflexivity | right]. }
  assert (Hm : In metadata (List.filter (emit s) optional_fields) ->
               order <> []).
  { intros H E. apply Hin, E7 in H. apply H.
    apply map_range_length in Hr. rewrite E in Hr. simpl in Hr.
    symmetry in Hr. now apply map_size_empty_inv in Hr. }
  assert (Hg : In security_groups (List.filter (emit s) optional_fields) ->
               SecurityGroups s <> []).
  { intros H. now apply Hin, E8 in H. }
  assert (Hall : forall f,
             In (wire_name f)
               (member_names
                  (payload_tokens order s
                     (List.filter (emit s) optional_fields)))
             <-> emit s f = true).
  { intros f. rewrite (member_names_payload order s _ Hm Hg).
    rewrite member_names_field. apply Hin. }
  split; [now apply MarshalJSON_ok|].
  split; [apply (scans_payload order s _ Hp (map_range_plain s order Hp Hr))|].
  split; [now apply member_names_payload|].
  split; [rewrite <- E1; apply (Hall personality)|].
  split; [rewrite <- E2; apply (Hall key_name)|].
  split; [rewrite <- E3; apply (Hall config_drive)|].
  split; [rewrite <- E4; apply (Hall min_count)|].
  split; [rewrite <- E5; apply (Hall max_count)|].
  split; [rewrite <- E6; apply (Hall user_data)|].
  split; [rewrite <- E7; apply (Hall metadata)|].
  split; [rewrite <- E8; apply (Hall security_groups)|].
  now apply empty_collection_payload.
Qed.

Lemma optional_field_emitted_iff_condition_witness :
  exists (payload : string) (ts : list token),
    MarshalJSON [("role", "web")] partly_set
    = ([Println "1"], Returns (payload, None))
    /\ lex payload = Some ts
    /\ member_names ts
       = ["flavorRef"; "imageRef"; "name"; "key_name"; "config_drive";
          "min_count"; "metadata"; "security_groups"]
    /\ (In "key_name" (member_names ts) <-> Key partly_set <> EmptyString)
    /\ (In "max_count" (member_names ts) <-> 0 < MaxCount partly_set)
    /\ empty_collection ts = false.
Proof.
  destruct (optional_field_emitted_iff_condition [("role", "web")] partly_set)
    as (payload & ts & E & L & M & _ & Hk & _ & _ & Hmax & _ & _ & _ & He).
  - reflexivity.
  - by_visit.
  - apply plain_partly_set.
  - exists payload, ts. split; [exact E|]. split; [exact L|].
    split; [exact M|]. split; [exact Hk|]. split; [exact Hmax | exact He].
Defined.

(** ** C6: one metadata entry *)

(** C6, as stated, at a request whose name closes its own string and
    goes on with a member, web","key_name":"mine, with the single
    metadata entry role = web and every other optional field empty or
    zero.  The payload is a well-formed JSON object, and beside the one
    metadata entry it holds a key_name member. *)
Lemma key_name_member_beside_metadata :
  let s := with_name name_with_member
             (with_metadata {[ "role" := "web" ]} sample) in
  valid s
  /\ map_range (Metadata s) [("role", "web")]
  /\ Metadata s = {[ "role" := "web" ]}
  /\ Personality s = EmptyString /\ Key s = EmptyString
  /\ ConfigDrive s = false /\ MinCount s = 0 /\ MaxCount s = 0
  /\ UserData s = EmptyString /\ SecurityGroups s = []
  /\ MarshalJSON [("role", "web")] s
     = ([Println "1"],
        Returns (lit "{'server':{'flavorRef':100,'imageRef':1235,'name':'web','key_name':'mine','metadata':{'role': 'web'}}}",
                 None))
  /\ json_object (lit "{'server':{'flavorRef':100,'imageRef':1235,'name':'web','key_name':'mine','metadata':{'role': 'web'}}}")
     = true
  /\ exists ts,
       lex (lit "{'server':{'flavorRef':100,'imageRef':1235,'name':'web','key_name':'mine','metadata':{'role': 'web'}}}")
       = Some ts
       /\ member_names ts
          = ["flavorRef"; "imageRef"; "name"; "key_name"; "metadata"]
       /\ In "key_name" (member_names ts).
Proof.
  cbv zeta. split; [reflexivity|]. split; [by_visit|].
  do 8 (split; [reflexivity|]). split; [reflexivity|].
  split; [reflexivity|].
  eexists. split; [vm_compute; reflexivity|]. split; [reflexivity|].
  cbn. right. right. right. left. reflexivity.
Qed.

(** C6, amended: for a name that is plain (no double quote, no
    backslash, no control character).  With the single metadata entry
    role = web and every other optional field empty or zero, the
    payload is the three required fields followed by the metadata
    object alone: one entry, role mapped to web, the object closed
    once, and then the two closing braces of the payload.  The payload
    is a well-formed JSON object; the members of its server object are
    flavorRef, imageRef, name and metadata and no other, and the only
    name one level further down is role. *)
Theorem single_metadata_entry :
  forall (order : list (string * string)) (s : Server.t),
    valid s -> map_range (Metadata s) order ->
    plain (Name s) = true ->
    Metadata s = {[ "role" := "web" ]} ->
    Personality s = EmptyString -> Key s = EmptyString ->
    ConfigDrive s = false -> MinCount s = 0 -> MaxCount s = 0 ->
    UserData s = EmptyString -> SecurityGroups s = [] ->
    exists (payload : string) (ts : list token),
      MarshalJSON order s = ([Println "1"], Returns (payload, None))
      /\ payload
         = required s +:+ lit ",'metadata':{'role': 'web'}" +:+ "}}"
      /\ lex (lit "{'role': 'web'}")
         = Some [TLBrace; TString "role"; TColon; TString "web"; TRBrace]
      /\ json_object (lit "{'role': 'web'}") = true
      /\ lex payload = Some ts
      /\ ts = [TLBrace; TString "server"; TColon; TLBrace;
               TString "flavorRef"; TColon;
               TNumber (FormatInt (FlavorRef s)); TComma;
               TString "imageRef"; TColon;
               TNumber (FormatInt (ImageRef s)); TComma;
               TString "name"; TColon; TString (Name s); TComma;
               TString "metadata"; TColon;
               TLBrace; TString "role"; TColon; TString "web"; TRBrace;
               TRBrace; TRBrace]
      /\ member_names ts = ["flavorRef"; "imageRef"; "name"; "metadata"]
      /\ inner_names ts = ["role"]
      /\ json_object payload = true.
Proof.
  intros order s Hv Hr Hn Hm Hp Hk Hc Hmin Hmax Hu Hg.
  assert (L : lex (required s +:+ lit ",'metadata':{'role': 'web'}"
                   +:+ "}}")
              = Some (required_tokens s
                      ++ [TComma; TString "metadata"; TColon;
                          TLBrace; TString "role"; TColon; TString "web";
                          TRBrace; TRBrace; TRBrace])%list).
  { apply scans_lex, scans_app; [now apply scans_required | | reflexivity].
    apply scans_closed_scans. reflexivity. }
  eexists. eexists.
  split; [|split; [reflexivity|split; [reflexivity|split; [reflexivity|
    split; [exact L|split; [reflexivity|split; [reflexivity|
    split; [reflexivity|]]]]]]]].
  - rewrite (MarshalJSON_ok order s Hv Hr).
    rewrite Hm in Hr. apply map_range_singleton in Hr. subst order.
    unfold printed, optional. cbn [optional_fields List.filter emit].
    rewrite Hm, Hp, Hk, Hc, Hmin, Hmax, Hu, Hg, map_size_singleton.
    reflexivity.
  - rewrite (json_object_parse _ _ L). reflexivity.
Qed.

Lemma single_metadata_entry_witness :
  exists (payload : string) (ts : list token),
    MarshalJSON [("role", "web")]
      (with_metadata {[ "role" := "web" ]} sample)
    = ([Println "1"], Returns (payload, None))
    /\ payload
       = lit "{'server':{'flavorRef':100,'imageRef':1235,'name':'web','metadata':{'role': 'web'}}}"
    /\ lex payload = Some ts
    /\ member_names ts = ["flavorRef"; "imageRef"; "name"; "metadata"]
    /\ inner_names ts = ["role"]
    /\ json_object payload = true.
Proof.
  destruct (single_metadata_entry [("role", "web")]
              (with_metadata {[ "role" := "web" ]} sample))
    as (payload & ts & H1 & H2 & _ & _ & H3 & _ & H4 & H5 & H6);
    try reflexivity.
  - by_visit.
  - exists payload, ts. repeat split; assumption.
Defined.

(** ** C7: two security groups *)

(** C7. With the two security groups default and web, in this order,
    the payload ends with the security_groups field whose value is an
    array of exactly two objects, default first, each holding a name
    and nothing else, one separator between them and none after the
    second; the array is closed once and the text of the value is a
    well-formed JSON array. *)
Theorem two_security_groups :
  forall (order : list (string * string)) (s : Server.t),
    valid s -> map_range (Metadata s) order ->
    map IDLink.Name (SecurityGroups s) = ["default"; "web"] ->
    (exists before,
       MarshalJSON order s
       = (printed s,
          Returns (before +:+ lit ",'security_groups':"
                   +:+ lit "[{'name': 'default'},{'name': 'web'}]"
                   +:+ "}}", None)))
    /\ lex (lit "[{'name': 'default'},{'name': 'web'}]")
       = Some [TLBracket;
               TLBrace; TString "name"; TColon; TString "default"; TRBrace;
               TComma;
               TLBrace; TString "name"; TColon; TString "web"; TRBrace;
               TRBracket]
    /\ json_valid (lit "[{'name': 'default'},{'name': 'web'}]") = true.
Proof.
  intros order s Hv Hr Hg. split; [|split; reflexivity].
  rewrite (MarshalJSON_ok order s Hv Hr).
  destruct (SecurityGroups s) as [|g1 [|g2 [|g3 gs]]] eqn:E;
    try discriminate Hg.
  cbn [map] in Hg. injection Hg as H2 H1.
  exists (required s
          +:+ flat (map (fun f => opt (emit s f) (written order s f))
                      [personality; key_name; config_drive; min_count;
                       max_count; user_data; metadata])).
  unfold optional. rewrite flat_filter. cbn [optional_fields map flat].
  cbn [emit]. rewrite E. cbn [List.length Nat.eqb negb opt].
  unfold written at 8. cbn [wire_name wire_value wire_tail].
  rewrite E. cbn [map joined]. unfold group. rewrite H1, H2.
  autorewrite with texts. reflexivity.
Qed.

Lemma two_security_groups_witness :
  exists before,
    MarshalJSON [] (with_groups [named "default"; named "web"] sample)
    = ([], Returns (before +:+ lit ",'security_groups':"
                    +:+ lit "[{'name': 'default'},{'name': 'web'}]"
                    +:+ "}}", None)).
Proof.
  apply (two_security_groups []
           (with_groups [named "default"; named "web"] sample)).
  - reflexivity.
  - by_visit.
  - reflexivity.
Defined.

(** ** C8: required fields *)

(** C8. The payload of a request that passes validation opens with
    flavorRef, imageRef and name, in this order, each with its value;
    whatever optional field is written comes after them, in [optional].
    When the texts of the request are plain, the scanner reads the
    payload as the tokens of these three members, then the tokens of
    the optional fields and the two closing braces. *)
Theorem required_fields_first :
  forall (order : list (string * string)) (s : Server.t),
    valid s -> map_range (Metadata s) order ->
    MarshalJSON order s
    = (printed s,
       Returns (lit "{'server':{'flavorRef':" +:+ FormatInt (FlavorRef s)
                +:+ lit ",'imageRef':" +:+ FormatInt (ImageRef s)
                +:+ lit ",'name':" +:+ quoted (Name s)
                +:+ optional order s +:+ "}}", None))
    /\ (plain_request s ->
        exists payload fs,
          snd (MarshalJSON order s) = Returns (payload, None)
          /\ lex payload
             = Some ([TLBrace; TString "server"; TColon; TLBrace;
                      TString "flavorRef"; TColon;
                      TNumber (FormatInt (FlavorRef s)); TComma;
                      TString "imageRef"; TColon;
                      TNumber (FormatInt (ImageRef s)); TComma;
                      TString "name"; TColon; TString (Name s)]
                       ++ concat (map (field_tokens order s) fs)
                       ++ [TRBrace; TRBrace])%list).
Proof.
  intros order s Hv Hr. rewrite (MarshalJSON_ok order s Hv Hr). split.
  - unfold required. now rewrite !append_assoc.
  - intros Hp.
    exists (required s +:+ optional order s +:+ "}}"),
      (List.filter (emit s) optional_fields).
    split; [reflexivity|].
    apply (scans_payload order s _ Hp (map_range_plain s order Hp Hr)).
Qed.

Lemma required_fields_first_witness :
  MarshalJSON [] sample
  = ([], Returns (lit "{'server':{'flavorRef':100,'imageRef':1235,'name':'web'}}",
                  None))
  /\ exists payload fs,
       snd (MarshalJSON [] sample) = Returns (payload, None)
       /\ lex payload
          = Some ([TLBrace; TString "server"; TColon; TLBrace;
                   TString "flavorRef"; TColon; TNumber "100"; TComma;
                   TString "imageRef"; TColon; TNumber "1235"; TComma;
                   TString "name"; TColon; TString "web"]
                    ++ concat (map (field_tokens [] sample) fs)
                    ++ [TRBrace; TRBrace])%list.
Proof.
  destruct (required_fields_first [] sample) as [H1 H2].
  - reflexivity.
  - by_visit.
  - split; [exact H1|]. apply H2. by_plain.
Defined.

(** ** C9: determinism *)

(** C9. Two runs of the encoder on the same request, each visiting the
    metadata map in an order of its own, print the same line, end with
    the same error result and, when they succeed, return payloads that
    are the same text before and after the metadata entries; the
    entries themselves are the same up to their order.  With the same
    order of visit, or a map of at most one entry, the two runs are
    identical. *)
Theorem encoding_is_deterministic :
  forall (s : Server.t) (order1 order2 : list (string * string)),
    map_range (Metadata s) order1 -> map_range (Metadata s) order2 ->
    order1 ≡ₚ order2
    /\ ((exists e,
           MarshalJSON order1 s = ([], Returns (EmptyString, Some e))
           /\ MarshalJSON order2 s = ([], Returns (EmptyString, Some e)))
        \/ (exists before after,
              MarshalJSON order1 s
              = (printed s,
                 Returns (before +:+ joined "}" (map entry order1)
                          +:+ after, None))
              /\ MarshalJSON order2 s
                 = (printed s,
                    Returns (before +:+ joined "}" (map entry order2)
                             +:+ after, None))))
    /\ (order1 = order2 -> MarshalJSON order1 s = MarshalJSON order2 s)
    /\ ((size (Metadata s) <= 1)%nat ->
        MarshalJSON order1 s = MarshalJSON order2 s).
Proof.
  intros s order1 order2 H1 H2.
  assert (Hp : order1 ≡ₚ order2).
  { unfold map_range in *. now rewrite H1, H2. }
  split; [exact Hp|]. split; [|split].
  - destruct (validate s) as [e|] eqn:Hv.
    + left. exists e. split; now apply MarshalJSON_invalid.
    + right.
      exists (required s
              +:+ flat (map (fun f => opt (emit s f) (written order1 s f))
                          [personality; key_name; config_drive; min_count;
                           max_count; user_data])
              +:+ opt (emit s metadata) (lit ",'metadata':{")),
        (opt (emit s security_groups) (written order1 s security_groups)
         +:+ "}}").
      rewrite (MarshalJSON_ok order1 s Hv H1), (MarshalJSON_ok order2 s Hv H2).
      unfold optional. rewrite !flat_filter. cbn [optional_fields map flat].
      rewrite !(written_order order2 order1) by discriminate.
      assert (Hm : forall order,
                 map_range (Metadata s) order ->
                 opt (emit s metadata) (written order s metadata)
                 = opt (emit s metadata) (lit ",'metadata':{")
                   +:+ joined "}" (map entry order)).
      { intros order Hr. cbn [emit].
        destruct (size (Metadata s)) eqn:Hsize; cbn [Nat.eqb negb opt].
        - apply map_range_length in Hr. rewrite Hsize in Hr.
          now destruct order.
        - unfold written. cbn [wire_name wire_value wire_tail].
          unfold quoted. autorewrite with texts. reflexivity. }
      rewrite (Hm order1 H1), (Hm order2 H2).
      autorewrite with texts. split; reflexivity.
  - intros E. now rewrite E.
  - intros Hsize. replace order2 with order1; [reflexivity|].
    pose proof (map_range_length _ _ H1) as L1.
    pose proof (map_range_length _ _ H2) as L2.
    destruct order1 as [|x [|y l]]; simpl in L1.
    + destruct order2; [reflexivity|]. simpl in L2. lia.
    + apply Permutation_singleton_l in Hp. exact Hp.
    + lia.
Qed.

Lemma encoding_is_deterministic_witness :
  let s := with_metadata two_entries sample in
  exists before after,
    MarshalJSON [("a", "1"); ("b", "2")] s
    = (printed s,
       Returns (before +:+ lit "'a': '1','b': '2'}" +:+ after, None))
    /\ MarshalJSON [("b", "2"); ("a", "1")] s
       = (printed s,
          Returns (before +:+ lit "'b': '2','a': '1'}" +:+ after, None)).
Proof.
  cbv zeta.
  destruct (proj1 (proj2 (encoding_is_deterministic
                            (with_metadata two_entries sample)
                            [("a", "1"); ("b", "2")]
                            [("b", "2"); ("a", "1")]
                            ltac:(by_visit)
                            ltac:(unfold map_range; vm_compute;
                                  apply perm_swap))))
    as [(e & E & _) | H].
  - vm_compute in E. discriminate E.
  - exact H.
Defined.

(** ** C10: interpolated texts *)

(** C10, as stated, at a request whose name is C:\temp.  The name
    holds a backslash, and the payload is a well-formed JSON object all
    the same: the backslash and the t after it read as an escape. *)
Lemma backslash_in_well_formed_payload :
  let s := with_name "C:\temp" sample in
  valid s
  /\ contains bslash (Name s) = true
  /\ MarshalJSON [] s
     = ([], Returns (lit "{'server':{'flavorRef':100,'imageRef':1235,'name':'C:\temp'}}",
                     None))
  /\ json_object (lit "{'server':{'flavorRef':100,'imageRef':1235,'name':'C:\temp'}}")
     = true.
Proof. repeat split. Qed.

(** C10, amended.  Name, key name, personality, metadata keys and
    values and group names are copied into the payload between double
    quotes, byte for byte.  When all of them are plain (no double quote,
    no backslash, no control character) and neither personality nor
    user_data is written, the payload is a well-formed JSON object.
    The payload is not well-formed JSON, and does not even split into
    tokens, in two cases: when no interpolated text holds a backslash
    and the interpolated texts hold an odd number of double quotes in
    all; and when the name is a text without double quote and without
    backslash followed by one backslash, while the other interpolated
    texts hold no backslash and an even number of double quotes in
    all. *)
Theorem strings_are_interpolated_verbatim :
  (forall (order : list (string * string)) (s : Server.t),
      valid s -> map_range (Metadata s) order ->
      exists payload,
        MarshalJSON order s = (printed s, Returns (payload, None))
        /\ occurs_in (lit ",'name':" +:+ quoted (Name s)) payload
        /\ (Key s <> EmptyString ->
            occurs_in (lit ",'key_name':" +:+ quoted (Key s)) payload)
        /\ (Personality s <> EmptyString ->
            occurs_in (lit ",'personality':" +:+ quoted (Personality s))
              payload)
        /\ (forall k v, Metadata s !! k = Some v ->
              occurs_in (quoted k +:+ ": " +:+ quoted v) payload)
        /\ (forall sg, In sg (SecurityGroups s) ->
              occurs_in (lit "{'name': " +:+ quoted (IDLink.Name sg) +:+ "}")
                payload)
        /\ (plain_request s -> Personality s = EmptyString ->
            UserData s = EmptyString -> json_object payload = true))
  /\ (forall (order : list (string * string)) (s : Server.t),
        valid s -> map_range (Metadata s) order ->
        contains bslash (Name s) = false -> others_without_backslash s ->
        Nat.odd (text_quotes order s) = true ->
        exists payload,
          MarshalJSON order s = (printed s, Returns (payload, None))
          /\ lex payload = None
          /\ json_valid payload = false
          /\ json_object payload = false)
  /\ (forall (order : list (string * string)) (s : Server.t) (u : string),
        valid s -> map_range (Metadata s) order ->
        Name s = u +:+ String bslash EmptyString ->
        contains dquote u = false -> contains bslash u = false ->
        others_without_backslash s ->
        Nat.odd (other_quotes order s) = false ->
        exists payload,
          MarshalJSON order s = (printed s, Returns (payload, None))
          /\ lex payload = None
          /\ json_valid payload = false
          /\ json_object payload = false).
Proof.
  split; [|split].
  - intros order s Hv Hr.
    exists (required s +:+ optional order s +:+ "}}").
    split; [now apply MarshalJSON_ok|].
    destruct (emit_iff s) as (E1 & E2 & _ & _ & _ & _ & E7 & E8).
    split; [|split; [|split; [|split; [|split]]]].
    + apply occurs_in_app_l. unfold required.
      do 4 apply occurs_in_app_r. apply occurs_in_refl.
    + intros H. apply E2 in H.
      apply occurs_in_trans with (y := written order s key_name);
        [|now apply written_occurs].
      unfold written. cbn [wire_name wire_value wire_tail].
      rewrite append_nil_r. apply occurs_in_refl.
    + intros H. apply E1 in H.
      apply occurs_in_trans with (y := written order s personality);
        [|now apply written_occurs].
      unfold written. cbn [wire_name wire_value wire_tail].
      rewrite <- !append_assoc. apply occurs_in_app_l.
      rewrite !append_assoc. apply occurs_in_refl.
    + intros k v H.
      assert (Hne : Metadata s <> ∅)
        by (intros X; rewrite X, lookup_empty in H; discriminate H).
      apply E7 in Hne.
      apply occurs_in_trans with (y := written order s metadata);
        [|now apply written_occurs].
      unfold written. cbn [wire_name wire_value wire_tail].
      do 3 apply occurs_in_app_r. apply occurs_in_app_l, occurs_in_app_r.
      apply (occurs_in_joined (entry (k, v))). apply in_map.
      apply list_elem_of_In. unfold map_range in Hr. rewrite Hr.
      now apply elem_of_map_to_list.
    + intros sg H.
      assert (Hne : SecurityGroups s <> [])
        by (intros X; rewrite X in H; destruct H).
      apply E8 in Hne.
      apply occurs_in_trans with (y := written order s security_groups);
        [|now apply written_occurs].
      unfold written. cbn [wire_name wire_value wire_tail].
      do 3 apply occurs_in_app_r. apply occurs_in_app_l, occurs_in_app_r.
      apply (occurs_in_joined (group sg)). now apply in_map.
    + intros Hp HP HU.
      destruct (plain_payload_well_formed order s
                  (required s +:+ optional order s +:+ "}}") Hv Hr Hp)
        as [H _].
      * now rewrite (MarshalJSON_ok order s Hv Hr).
      * rewrite H, HP, HU. reflexivity.
  - intros order s Hv Hr Hn Ho Hodd.
    exists (required s +:+ optional order s +:+ "}}").
    split; [now apply MarshalJSON_ok|].
    assert (L : lex (required s +:+ optional order s +:+ "}}") = None).
    { apply lex_odd_quotes.
      - rewrite contains_app, (required_without_backslash s Hn).
        now apply optional_without_backslash.
      - destruct (quotes_payload order s Hr) as (k & ->).
        now rewrite Nat.odd_add_mul_2. }
    unfold json_valid, json_object. rewrite L. repeat split.
  - intros order s u Hv Hr Hn Hq Hb Ho Heven.
    exists (required s +:+ optional order s +:+ "}}").
    split; [now apply MarshalJSON_ok|].
    assert (L : lex (required s +:+ optional order s +:+ "}}") = None).
    { rewrite (payload_escaped s u _ Hn). apply lex_escaped_quote.
      - rewrite !contains_app, !(proj2 (FormatInt_clean _)).
        cbn [contains]. rewrite Hb. reflexivity.
      - rewrite !quotes_app, !(proj1 (FormatInt_clean _)).
        cbn [quotes]. rewrite (quotes_none u Hq). reflexivity.
      - now apply optional_without_backslash.
      - rewrite quotes_app. destruct (quotes_optional order s Hr) as (k & ->).
        cbn [quotes]. change (Ascii.eqb "}" dquote) with false. cbv iota.
        cbn [Nat.add]. now rewrite Nat.add_0_r, Nat.odd_add_mul_2. }
    unfold json_valid, json_object. rewrite L. repeat split.
Qed.

Lemma strings_are_interpolated_verbatim_witness :
  (exists payload,
      MarshalJSON [] sample = ([], Returns (payload, None))
      /\ occurs_in (lit ",'name':'web'") payload
      /\ json_object payload = true)
  /\ (exists payload,
        MarshalJSON [] (with_name (lit "a'b") sample)
        = ([], Returns (payload, None))
        /\ lex payload = None /\ json_valid payload = false)
  /\ (exists payload,
        MarshalJSON [] (with_name (String "a" (String bslash EmptyString))
                          sample)
        = ([], Returns (payload, None))
        /\ lex payload = None /\ json_valid payload = false).
Proof.
  split; [|split].
  - destruct (proj1 strings_are_interpolated_verbatim [] sample)
      as (payload & E & Hn & _ & _ & _ & _ & Hwf).
    + reflexivity.
    + by_visit.
    + exists payload. split; [exact E|]. split; [exact Hn|].
      apply Hwf; [apply plain_sample | reflexivity | reflexivity].
  - destruct (proj1 (proj2 strings_are_interpolated_verbatim) []
                (with_name (lit "a'b") sample))
      as (payload & E & L & V & _).
    + reflexivity.
    + by_visit.
    + reflexivity.
    + apply sample_without_backslash.
    + reflexivity.
    + exists payload. split; [exact E|]. split; [exact L | exact V].
  - destruct (proj2 (proj2 strings_are_interpolated_verbatim) []
                (with_name (String "a" (String bslash EmptyString)) sample)
                "a")
      as (payload & E & L & V & _).
    + reflexivity.
    + by_visit.
    + reflexivity.
    + reflexivity.
    + reflexivity.
    + apply sample_without_backslash.
    + reflexivity.
    + exists payload. split; [exact E|]. split; [exact L | exact V].
Defined.

(** * Further properties of the code *)

(** ** How [MarshalJSON] ends *)

(** X1. Whatever the request and whatever the order of the visit,
    [MarshalJSON] returns: the call to [Encode] never panics.  The
    error it returns is that of the first violated rule, none when all
    rules hold; the payload is empty exactly when an error is returned;
    and nothing is printed when an error is returned. *)
Theorem MarshalJSON_never_panics :
  forall (order : list (string * string)) (s : Server.t),
  exists payload err,
    MarshalJSON order s
    = (match err with None => printed s | Some _ => [] end,
       Returns (payload, err))
    /\ err = validate s
    /\ (payload = EmptyString <-> err <> None).
Proof.
  intros order s. destruct (validate s) as [e|] eqn:Hv.
  - exists EmptyString, (Some e). split; [now apply MarshalJSON_invalid|].
    split; [reflexivity|]. split; [discriminate | reflexivity].
  - destruct (MarshalJSON_valid_head order s Hv) as [rest E].
    eexists _, None. split; [exact E|]. split; [reflexivity|].
    split; [|intros H; now contradiction H].
    intros H. now apply required_not_empty in H.
Qed.

(** ** What the payload depends on *)

(** X2. Two requests with the same [wire_view] are encoded alike.  So
    the identifiers and links of the security groups, the value of a
    count that is not positive, and the content of a non-empty user
    data never reach the result. *)
Theorem wire_view_determines_encoding :
  forall (order : list (string * string)) (s1 s2 : Server.t),
    wire_view s1 = wire_view s2 ->
    MarshalJSON order s1 = MarshalJSON order s2.
Proof.
  intros order s1 s2 H. unfold wire_view in H.
  injection H as Hf Hi Hn Hk Hp Hc Hmin Hmax Hu Hm Hg.
  unfold MarshalJSON. cbv zeta.
  rewrite Hf, Hi, Hn, Hk, Hp, Hc, Hu, Hm, !Encode_empty_src.
  rewrite (count_written (MinCount s1) (MinCount s2) _ _ Hmin).
  rewrite (count_written (MaxCount s1) (MaxCount s2) _ _ Hmax).
  assert (Hl : List.length (SecurityGroups s1)
               = List.length (SecurityGroups s2))
    by (rewrite <- (length_map IDLink.Name (SecurityGroups s1)), Hg;
        apply length_map).
  rewrite Hl.
  destruct ((FlavorRef s2 <? 100) || (FlavorRef s2 >? 105));
    [reflexivity|].
  destruct (ImageRef s2 =? 0); [reflexivity|].
  destruct (is_empty (Name s2)); [reflexivity|].
  destruct (255 <? String.length (Personality s2))%nat; [reflexivity|].
  destruct (negb (is_empty (UserData s2)));
    destruct (0 <? size (Metadata s2))%nat; cbv iota beta;
    destruct (0 <? List.length (SecurityGroups s2))%nat;
    try reflexivity;
    now rewrite (range_SecurityGroups_names _ _ _ _ _ Hg).
Qed.

Lemma wire_view_determines_encoding_witness :
  lossy_a <> lossy_b
  /\ MarshalJSON [] lossy_a = MarshalJSON [] lossy_b.
Proof.
  split; [discriminate|].
  apply (wire_view_determines_encoding [] lossy_a lossy_b). reflexivity.
Defined.

(** X3. Among requests that pass validation and whose texts are plain,
    the payload determines everything the encoder reads: two such
    requests with the same payload have the same [wire_view], and the
    two runs visited the metadata in the same order. *)
Theorem payload_determines_wire_view :
  forall (order1 order2 : list (string * string)) (s1 s2 : Server.t)
         (payload : string),
    valid s1 -> valid s2 ->
    map_range (Metadata s1) order1 -> map_range (Metadata s2) order2 ->
    plain_request s1 -> plain_request s2 ->
    snd (MarshalJSON order1 s1) = Returns (payload, None) ->
    snd (MarshalJSON order2 s2) = Returns (payload, None) ->
    wire_view s1 = wire_view s2 /\ order1 = order2.
Proof.
  intros order1 order2 s1 s2 payload Hv1 Hv2 Hr1 Hr2 Hp1 Hp2 E1 E2.
  rewrite (MarshalJSON_ok order1 s1 Hv1 Hr1) in E1.
  rewrite (MarshalJSON_ok order2 s2 Hv2 Hr2) in E2. cbn [snd] in E1, E2.
  assert (P1 : payload = required s1 +:+ optional order1 s1 +:+ "}}")
    by congruence.
  assert (P2 : payload = required s2 +:+ optional order2 s2 +:+ "}}")
    by congruence.
  clear E1 E2. unfold optional in P1, P2.
  pose proof (scans_payload order1 s1
                (List.filter (emit s1) optional_fields) Hp1
                (map_range_plain s1 order1 Hp1 Hr1)) as L1.
  pose proof (scans_payload order2 s2
                (List.filter (emit s2) optional_fields) Hp2
                (map_range_plain s2 order2 Hp2 Hr2)) as L2.
  rewrite <- P1 in L1. rewrite <- P2, L1 in L2.
  assert (L : payload_tokens order1 s1 (List.filter (emit s1) optional_fields)
              = payload_tokens order2 s2
                  (List.filter (emit s2) optional_fields)) by congruence.
  clear L2. unfold payload_tokens in L.
  rewrite !concat_filter in L.
  change (concat (map (fun f => if emit s1 f then field_tokens order1 s1 f
                                 else []) optional_fields)
          ++ [TRBrace; TRBrace])%list
    with (rest_tokens order1 s1 optional_fields) in L.
  change (concat (map (fun f => if emit s2 f then field_tokens order2 s2 f
                                 else []) optional_fields)
          ++ [TRBrace; TRBrace])%list
    with (rest_tokens order2 s2 optional_fields) in L.
  unfold required_tokens in L. cbn [app] in L.
  injection L as Hf Hi Hn L.
  apply FormatInt_inj in Hf, Hi.
  pose proof (map_range_length _ _ Hr1) as Len1.
  pose proof (map_range_length _ _ Hr2) as Len2.
  assert (N1 : emit s1 metadata = true -> order1 <> []).
  { cbn [emit]. intros H X. rewrite X in Len1. simpl in Len1.
    rewrite <- Len1 in H. discriminate H. }
  assert (N2 : emit s2 metadata = true -> order2 <> []).
  { cbn [emit]. intros H X. rewrite X in Len2. simpl in Len2.
    rewrite <- Len2 in H. discriminate H. }
  pose proof (rest_tokens_inj order1 order2 s1 s2 optional_fields
                optional_fields_NoDup N1 N2 L) as R.
  assert (In8 : forall f, In f optional_fields)
    by (intros f; unfold optional_fields; cbn [In];
        destruct f; repeat first [left; reflexivity | right]).
  destruct (R personality (In8 _)) as [Ap Bp].
  destruct (R key_name (In8 _)) as [Ak Bk].
  destruct (R config_drive (In8 _)) as [Ac _].
  destruct (R min_count (In8 _)) as [Ami Bmi].
  destruct (R max_count (In8 _)) as [Ama Bma].
  destruct (R user_data (In8 _)) as [Au _].
  destruct (R metadata (In8 _)) as [Am Bm].
  destruct (R security_groups (In8 _)) as [Ag Bg].
  clear R L L1 P1 P2. cbn [emit value_view] in *.
  assert (Ep : Personality s1 = Personality s2).
  { destruct (is_empty (Personality s1)) eqn:X1,
      (is_empty (Personality s2)) eqn:X2; try discriminate Ap.
    - apply is_empty_true in X1, X2. congruence.
    - specialize (Bp eq_refl). congruence. }
  assert (Ek : Key s1 = Key s2).
  { destruct (is_empty (Key s1)) eqn:X1,
      (is_empty (Key s2)) eqn:X2; try discriminate Ak.
    - apply is_empty_true in X1, X2. congruence.
    - specialize (Bk eq_refl). congruence. }
  assert (Emi : Z.max 0 (MinCount s1) = Z.max 0 (MinCount s2)).
  { destruct (Z.ltb_spec 0 (MinCount s1)), (Z.ltb_spec 0 (MinCount s2));
      try discriminate Ami; [|lia].
    specialize (Bmi eq_refl). injection Bmi as Bmi.
    apply FormatInt_inj in Bmi. lia. }
  assert (Ema : Z.max 0 (MaxCount s1) = Z.max 0 (MaxCount s2)).
  { destruct (Z.ltb_spec 0 (MaxCount s1)), (Z.ltb_spec 0 (MaxCount s2));
      try discriminate Ama; [|lia].
    specialize (Bma eq_refl). injection Bma as Bma.
    apply FormatInt_inj in Bma. lia. }
  assert (Eu : is_empty (UserData s1) = is_empty (UserData s2)).
  { destruct (is_empty (UserData s1)), (is_empty (UserData s2));
      try reflexivity; discriminate Au. }
  assert (Eo : order1 = order2).
  { destruct (size (Metadata s1)) eqn:X1, (size (Metadata s2)) eqn:X2;
      try discriminate Am.
    - destruct order1, order2; try discriminate; reflexivity.
    - specialize (Bm eq_refl). congruence. }
  assert (Em : Metadata s1 = Metadata s2).
  { apply map_to_list_inj. unfold map_range in Hr1, Hr2.
    now rewrite <- Hr1, <- Hr2, Eo. }
  assert (Eg : map IDLink.Name (SecurityGroups s1)
               = map IDLink.Name (SecurityGroups s2)).
  { destruct (SecurityGroups s1) eqn:X1, (SecurityGroups s2) eqn:X2;
      try discriminate Ag; [reflexivity|].
    specialize (Bg eq_refl). congruence. }
  split; [|exact Eo]. unfold wire_view.
  now rewrite Hf, Hi, Hn, Ek, Ep, Ac, Emi, Ema, Eu, Em, Eg.
Qed.

Lemma payload_determines_wire_view_witness :
  wire_view lossy_a = wire_view lossy_b.
Proof.
  destruct (payload_determines_wire_view [] [] lossy_a lossy_b
              (lit "{'server':{'flavorRef':102,'imageRef':8419,'name':'db','user_data': '',,'security_groups':[{'name': 'default'}]}}"))
    as [H _].
  - reflexivity.
  - reflexivity.
  - by_visit.
  - by_visit.
  - by_plain_groups.
  - by_plain_groups.
  - reflexivity.
  - reflexivity.
  - exact H.
Defined.

(** X4. Take a request that passes validation and has neither key nor
    personality.  Giving it the key [k] yields the same result as
    leaving the key empty and appending to its name a double quote, a
    separator, the member name key_name and [k]: the two requests are
    different and their payloads are the same bytes. *)
Theorem name_can_carry_a_key_name :
  forall (order : list (string * string)) (s : Server.t) (k : string),
    valid s -> map_range (Metadata s) order ->
    Key s = EmptyString -> Personality s = EmptyString ->
    k <> EmptyString ->
    MarshalJSON order (with_name (Name s +:+ lit "','key_name':'" +:+ k) s)
    = MarshalJSON order (with_key k s)
    /\ Name (with_name (Name s +:+ lit "','key_name':'" +:+ k) s)
       <> Name (with_key k s)
    /\ Key (with_name (Name s +:+ lit "','key_name':'" +:+ k) s)
       <> Key (with_key k s).
Proof.
  intros order s k Hv Hr Hk Hp Hne.
  assert (Hv1 : valid (with_name (Name s +:+ lit "','key_name':'" +:+ k) s)).
  { apply valid_iff in Hv as (Hf & Hi & Hn & Hl). apply valid_iff.
    cbn. repeat split; try assumption; try lia.
    destruct (Name s); [now contradiction Hn | discriminate]. }
  assert (Hv2 : valid (with_key k s)).
  { apply valid_iff in Hv. apply valid_iff. exact Hv. }
  split; [|split].
  - rewrite (MarshalJSON_ok order _ Hv1 Hr), (MarshalJSON_ok order _ Hv2 Hr).
    unfold printed, required, optional. rewrite !flat_filter.
    cbn [optional_fields map flat emit with_name with_key Server.Name
         Server.Key Server.Personality Server.ConfigDrive Server.MinCount
         Server.MaxCount Server.UserData Server.Metadata
         Server.SecurityGroups Server.FlavorRef Server.ImageRef].
    rewrite !written_with_name, written_key_name.
    rewrite !written_with_key by discriminate.
    rewrite Hk, Hp, quoted_carries_key_name.
    replace (is_empty k) with false by (symmetry; now apply is_empty_false).
    cbn [is_empty String.eqb negb opt].
    autorewrite with texts. reflexivity.
  - cbn. intros H. apply append_cancel_nil in H. discriminate H.
  - cbn. rewrite Hk. congruence.
Qed.

Lemma name_can_carry_a_key_name_witness :
  MarshalJSON [] (with_name (lit "web','key_name':'mine") sample)
  = MarshalJSON [] (with_key "mine" sample).
Proof.
  apply (name_can_carry_a_key_name [] sample "mine").
  - reflexivity.
  - by_visit.
  - reflexivity.
  - reflexivity.
  - discriminate.
Defined.

(** X5. With image, name and personality in order, [MarshalJSON]
    returns a payload exactly for the six declared flavors, XSmall to
    DblXLarge, and for no other value of the flavor reference. *)
Theorem accepted_flavors :
  forall (order : list (string * string)) (s : Server.t),
    ImageRef s <> 0 -> Name s <> EmptyString ->
    (String.length (Personality s) <= 255)%nat ->
    ((exists payload, snd (MarshalJSON order s) = Returns (payload, None))
     <-> In (FlavorRef s) [XSmall; Small; Medium; Large; XLarge; DblXLarge]).
Proof.
  intros order s Hi Hn Hp.
  assert (Hin : In (FlavorRef s)
                  [XSmall; Small; Medium; Large; XLarge; DblXLarge]
                <-> 100 <= FlavorRef s <= 105).
  { unfold XSmall, Small, Medium, Large, XLarge, DblXLarge. cbn [In].
    unfold Flavor in *. lia. }
  rewrite Hin. split.
  - intros [payload E]. destruct (validate s) as [e|] eqn:Hv.
    + rewrite (MarshalJSON_invalid order s e Hv) in E. discriminate E.
    + now apply valid_iff in Hv.
  - intros Hf.
    assert (Hv : valid s) by (apply valid_iff; now repeat split).
    destruct (MarshalJSON_valid_head order s Hv) as [rest E].
    eexists. rewrite E. reflexivity.
Qed.

Lemma accepted_flavors_witness :
  (exists payload, snd (MarshalJSON [] sample) = Returns (payload, None))
  <-> In (FlavorRef sample) [XSmall; Small; Medium; Large; XLarge; DblXLarge].
Proof.
  apply (accepted_flavors [] sample).
  - by_lia.
  - simpl. discriminate.
  - vm_compute. lia.
Defined.

(** ** The calls to the transport *)

Section Requests.

Variable Access : Type.
Variable TenantID : Access -> string.
Variable COMPUTE_URL : string.
Variable baseRequest :
  Access -> string -> string -> option string -> string * option error.
Variable ServerResponse : Type.
Variable json_Unmarshal : string -> ServerResponse * option error.
Variable Flavors : Type.
Variable json_Unmarshal_Flavors : string -> Flavors * option error.
Variable json_Unmarshal_Images : string -> Images.t * option error.
Variable json_Unmarshal_Image : string -> Image.t * option error.

Lemma CreateServer_sends_the_payload_aux order (a : Access) s :
  valid s ->
  exists payload,
    MarshalJSON order s = (printed s, Returns (payload, None))
    /\ fst (CreateServer Access TenantID COMPUTE_URL baseRequest
              ServerResponse json_Unmarshal order a s)
       = (printed s
            ++ [Request (COMPUTE_URL +:+ TenantID a +:+ "/servers") "POST"
                  (Some payload)])%list.
Proof.
  intros Hv. destruct (MarshalJSON_valid_head order s Hv) as [rest E].
  eexists. split; [exact E|].
  unfold CreateServer, baseComputeRequest. rewrite E, Sprintf_path.
  destruct (baseRequest a _ "POST" _) as [body [err|]]; [reflexivity|].
  now destruct (json_Unmarshal body) as [sr [err|]].
Qed.

(** X6. For a request that passes validation, [CreateServer] hands the
    transport exactly one request: a POST to the servers resource of
    the tenant, whose body is the payload [MarshalJSON] returned, byte
    for byte.  An error of the transport is returned as it is and the
    reply is not decoded; otherwise the result is the decoded response,
    or the decoder's error and no response. *)
Theorem CreateServer_sends_the_payload :
  forall (order : list (string * string)) (a : Access) (s : Server.t),
    valid s ->
    exists payload,
      MarshalJSON order s = (printed s, Returns (payload, None))
      /\ let path := COMPUTE_URL +:+ TenantID a +:+ "/servers" in
         let reply := baseRequest a path "POST" (Some payload) in
         let result :=
           CreateServer Access TenantID COMPUTE_URL baseRequest
             ServerResponse json_Unmarshal order a s in
         fst result
         = (printed s ++ [Request path "POST" (Some payload)])%list
         /\ (forall e, snd reply = Some e ->
               snd result = Returns (None, Some e))
         /\ (snd reply = None ->
             forall sr e, json_Unmarshal (fst reply) = (sr, Some e) ->
               snd result = Returns (None, Some e))
         /\ (snd reply = None ->
             forall sr, json_Unmarshal (fst reply) = (sr, None) ->
               snd result = Returns (Some sr, None)).
Proof.
  intros order a s Hv.
  destruct (MarshalJSON_valid_head order s Hv) as [rest E].
  eexists. split; [exact E|]. cbv zeta.
  unfold CreateServer, baseComputeRequest. rewrite E, Sprintf_path.
  destruct (baseRequest a _ "POST" _) as [body [err|]] eqn:R; cbn [fst snd].
  - repeat split; try reflexivity; intros; try discriminate.
    now inversion H.
  - destruct (json_Unmarshal body) as [sr [err|]] eqn:U; cbn [fst snd];
      repeat split; try reflexivity; intros; try discriminate;
      match goal with
      | H : (_, _) = (_, _) |- _ => now inversion H
      end.
Qed.

(** X7. [CreateServer] sends whatever [MarshalJSON] returned without
    looking at it.  For a request that passes validation and whose
    texts are plain, the body of the one request it sends is a
    well-formed JSON object exactly when the request has neither
    personality nor user data; with either of them a body that is not
    well-formed goes to the transport. *)
Theorem CreateServer_body_well_formed :
  forall (order : list (string * string)) (a : Access) (s : Server.t),
    valid s -> map_range (Metadata s) order -> plain_request s ->
    exists payload,
      fst (CreateServer Access TenantID COMPUTE_URL baseRequest
             ServerResponse json_Unmarshal order a s)
      = (printed s
           ++ [Request (COMPUTE_URL +:+ TenantID a +:+ "/servers") "POST"
                 (Some payload)])%list
      /\ json_object payload
         = is_empty (Personality s) && is_empty (UserData s)
      /\ json_valid payload = json_object payload.
Proof.
  intros order a s Hv Hr Hp.
  destruct (CreateServer_sends_the_payload_aux order a s Hv)
    as (payload & E & H).
  exists payload. split; [exact H|].
  apply (plain_payload_well_formed order s payload Hv Hr Hp).
  now rewrite E.
Qed.

(** X8. An operation that returns a value and an error returns exactly
    one of the two, whatever the transport and the decoder answer:
    never a value together with an error, never neither.  None of them
    panics. *)
Theorem value_or_error :
  forall (order : list (string * string)) (a : Access) (s : Server.t)
         (image_id : string),
    (exists v e,
       snd (CreateServer Access TenantID COMPUTE_URL baseRequest
              ServerResponse json_Unmarshal order a s) = Returns (v, e)
       /\ (v = None <-> e <> None))
    /\ (exists v e,
          snd (ListFlavors Access TenantID COMPUTE_URL baseRequest
                 Flavors json_Unmarshal_Flavors a) = Returns (v, e)
          /\ (v = None <-> e <> None))
    /\ (exists v e,
          snd (ListImages Access TenantID COMPUTE_URL baseRequest
                 json_Unmarshal_Images a) = Returns (v, e)
          /\ (v = None <-> e <> None))
    /\ (exists v e,
          snd (ListImage Access TenantID COMPUTE_URL baseRequest
                 json_Unmarshal_Image a image_id) = Returns (v, e)
          /\ (v = None <-> e <> None)).
Proof.
  intros order a s image_id.
  split; [|split; [|split]].
  - unfold CreateServer, baseComputeRequest.
    destruct (MarshalJSON_never_panics_aux order s) as (ev & p & err & E).
    rewrite E. destruct err as [e|].
    + eexists _, _. split; [reflexivity|]. split; congruence.
    + destruct (baseRequest a _ _ _) as [body [e|]];
        [eexists _, _; split; [reflexivity|]; split; congruence|].
      destruct (json_Unmarshal body) as [sr [e|]];
        eexists _, _; (split; [reflexivity|]); split; congruence.
  - unfold ListFlavors, baseComputeRequest.
    destruct (baseRequest a _ _ _) as [body [e|]];
      [eexists _, _; split; [reflexivity|]; split; congruence|].
    destruct (json_Unmarshal_Flavors body) as [sr [e|]];
      eexists _, _; (split; [reflexivity|]); split; congruence.
  - unfold ListImages, baseComputeRequest.
    destruct (baseRequest a _ _ _) as [body [e|]];
      [eexists _, _; split; [reflexivity|]; split; congruence|].
    destruct (json_Unmarshal_Images body) as [sr [e|]];
      eexists _, _; (split; [reflexivity|]); split; congruence.
  - unfold ListImage, baseComputeRequest.
    destruct (baseRequest a _ _ _) as [body [e|]];
      [eexists _, _; split; [reflexivity|]; split; congruence|].
    destruct (json_Unmarshal_Image body) as [sr [e|]];
      eexists _, _; (split; [reflexivity|]); split; congruence.
Qed.

(** X9. [DeleteServer] and [DeleteImage] hand the transport exactly one
    request: a DELETE without body on the server, respectively the
    image, of that identifier under the tenant; the identifier goes
    into the path as it is.  They return the error of the transport,
    none when it reports none, and ignore the body of the reply. *)
Theorem delete_requests :
  forall (a : Access) (id : string),
    DeleteServer Access TenantID COMPUTE_URL baseRequest a id
    = ([Request (COMPUTE_URL +:+ TenantID a +:+ "/servers/" +:+ id)
          "DELETE" None],
       Returns (snd (baseRequest a
                       (COMPUTE_URL +:+ TenantID a +:+ "/servers/" +:+ id)
                       "DELETE" None)))
    /\ DeleteImage Access TenantID COMPUTE_URL baseRequest a id
       = ([Request (COMPUTE_URL +:+ TenantID a +:+ "/images/" +:+ id)
             "DELETE" None],
          Returns (snd (baseRequest a
                          (COMPUTE_URL +:+ TenantID a +:+ "/images/" +:+ id)
                          "DELETE" None))).
Proof.
  intros a id. split.
  - unfold DeleteServer, baseComputeRequest.
    rewrite Sprintf_servers, Sprintf_path.
    now destruct (baseRequest a _ _ _) as [body [e|]].
  - unfold DeleteImage, baseComputeRequest.
    rewrite Sprintf_images, Sprintf_path.
    now destruct (baseRequest a _ _ _) as [body [e|]].
Qed.

(** X10. [RebootServer] hands the transport exactly one request: a POST
    on the action resource of the server, whose body does not depend on
    the server and is a well-formed JSON object asking for a reboot of
    type HARD.  It returns the error of the transport. *)
Theorem reboot_request :
  forall (a : Access) (id : string),
    RebootServer Access TenantID COMPUTE_URL baseRequest a id
    = ([Request (COMPUTE_URL +:+ TenantID a +:+ "/servers/" +:+ id
                 +:+ "/action")
          "POST" (Some (lit "{'reboot':{'type':'HARD'}}"))],
       Returns (snd (baseRequest a
                       (COMPUTE_URL +:+ TenantID a +:+ "/servers/" +:+ id
                        +:+ "/action")
                       "POST" (Some (lit "{'reboot':{'type':'HARD'}}")))))
    /\ lex (lit "{'reboot':{'type':'HARD'}}")
       = Some [TLBrace; TString "reboot"; TColon;
               TLBrace; TString "type"; TColon; TString "HARD"; TRBrace;
               TRBrace]
    /\ json_object (lit "{'reboot':{'type':'HARD'}}") = true.
Proof.
  intros a id. split; [|split; reflexivity].
  unfold RebootServer, baseComputeRequest. cbv zeta.
  rewrite Sprintf_action, Sprintf_path.
  now destruct (baseRequest a _ _ _) as [body [e|]].
Qed.

(** X11. [ListFlavors], [ListImages] and [ListImage] hand the transport
    exactly one request, a GET without body, on the flavors resource,
    the images resource and the image of the given identifier.  An
    error of the transport is returned as it is, whatever the decoder
    would make of the reply; when the transport reports none, the
    result is what the decoder makes of the body. *)
Theorem list_requests :
  forall (a : Access) (id : string),
    let flavors := COMPUTE_URL +:+ TenantID a +:+ "/flavors" in
    let images := COMPUTE_URL +:+ TenantID a +:+ "/images" in
    let image := COMPUTE_URL +:+ TenantID a +:+ "/images/" +:+ id in
    fst (ListFlavors Access TenantID COMPUTE_URL baseRequest
           Flavors json_Unmarshal_Flavors a)
    = [Request flavors "GET" None]
    /\ fst (ListImages Access TenantID COMPUTE_URL baseRequest
              json_Unmarshal_Images a)
       = [Request images "GET" None]
    /\ fst (ListImage Access TenantID COMPUTE_URL baseRequest
              json_Unmarshal_Image a id)
       = [Request image "GET" None]
    /\ (forall e,
          (snd (baseRequest a flavors "GET" None) = Some e ->
           snd (ListFlavors Access TenantID COMPUTE_URL baseRequest
                  Flavors json_Unmarshal_Flavors a)
           = Returns (None, Some e))
          /\ (snd (baseRequest a images "GET" None) = Some e ->
              snd (ListImages Access TenantID COMPUTE_URL baseRequest
                     json_Unmarshal_Images a)
              = Returns (None, Some e))
          /\ (snd (baseRequest a image "GET" None) = Some e ->
              snd (ListImage Access TenantID COMPUTE_URL baseRequest
                     json_Unmarshal_Image a id)
              = Returns (None, Some e)))
    /\ (forall body,
          (baseRequest a flavors "GET" None = (body, None) ->
           snd (ListFlavors Access TenantID COMPUTE_URL baseRequest
                  Flavors json_Unmarshal_Flavors a)
           = Returns (match json_Unmarshal_Flavors body with
                      | (fl, None) => (Some fl, None)
                      | (_, Some e) => (None, Some e)
                      end))
          /\ (baseRequest a images "GET" None = (body, None) ->
              snd (ListImages Access TenantID COMPUTE_URL baseRequest
                     json_Unmarshal_Images a)
              = Returns (match json_Unmarshal_Images body with
                         | (im, None) => (Some im, None)
                         | (_, Some e) => (None, Some e)
                         end))
          /\ (baseRequest a image "GET" None = (body, None) ->
              snd (ListImage Access TenantID COMPUTE_URL baseRequest
                     json_Unmarshal_Image a id)
              = Returns (match json_Unmarshal_Image body with
                         | (i, None) => (Some i, None)
                         | (_, Some e) => (None, Some e)
                         end))).
Proof.
  intros a id. cbv zeta.
  unfold ListFlavors, ListImages, ListImage, baseComputeRequest.
  rewrite Sprintf_images, !Sprintf_path.
  change ("/" +:+ "flavors") with "/flavors".
  change ("/" +:+ "images") with "/images".
  change ("/" +:+ "images/" +:+ id) with ("/images/" +:+ id).
  destruct (baseRequest a (COMPUTE_URL +:+ TenantID a +:+ "/flavors")
              "GET" None) as [b1 [e1|]];
    destruct (baseRequest a (COMPUTE_URL +:+ TenantID a +:+ "/images")
                "GET" None) as [b2 [e2|]];
    destruct (baseRequest a (COMPUTE_URL +:+ TenantID a +:+ "/images/" +:+ id)
                "GET" None) as [b3 [e3|]];
    cbn [fst snd];
    repeat split; intros;
    try discriminate; try congruence;
    try (destruct (json_Unmarshal_Flavors b1) as [fl [e|]]; reflexivity);
    try (destruct (json_Unmarshal_Images b2) as [im [e|]]; reflexivity);
    try (destruct (json_Unmarshal_Image b3) as [i [e|]]; reflexivity);
    match goal with
    | H : (_, _) = (_, _) |- _ => inversion H; subst; clear H
    end;
    try (destruct (json_Unmarshal_Flavors body) as [fl [e|]]; reflexivity);
    try (destruct (json_Unmarshal_Images body) as [im [e|]]; reflexivity);
    try (destruct (json_Unmarshal_Image body) as [i [e|]]; reflexivity).
Qed.

End Requests.

Lemma CreateServer_sends_the_payload_witness :
  exists payload,
    MarshalJSON [] sample = ([], Returns (payload, None))
    /\ fst (CreateServer unit (fun _ => "t1") "https://compute/"
              (answering "{}" None) string (fun body => (body, None))
              [] tt sample)
       = [Request "https://compute/t1/servers" "POST" (Some payload)].
Proof.
  destruct (CreateServer_sends_the_payload unit (fun _ => "t1")
              "https://compute/" (answering "{}" None) string
              (fun body => (body, None)) [] tt sample)
    as (payload & E & H & _).
  - reflexivity.
  - exists payload. split; [exact E | exact H].
Defined.

Lemma CreateServer_body_well_formed_witness :
  exists payload,
    fst (CreateServer unit (fun _ => "t1") "https://compute/"
           (answering "{}" None) string (fun body => (body, None))
           [] tt (with_user_data "hello" sample))
    = [Request "https://compute/t1/servers" "POST" (Some payload)]
    /\ json_valid payload = false.
Proof.
  destruct (CreateServer_body_well_formed unit (fun _ => "t1")
              "https://compute/" (answering "{}" None) string
              (fun body => (body, None)) [] tt
              (with_user_data "hello" sample))
    as (payload & E & H1 & H2).
  - reflexivity.
  - by_visit.
  - by_plain.
  - exists payload. split; [exact E|]. rewrite H2, H1. reflexivity.
Defined.

Lemma list_requests_witness :
  snd (ListImage unit (fun _ => "t1") "https://compute/"
         (answering EmptyString (Some (errors_New "404")))
         (fun body => ({| Image.I :=
                            {| Image.Name := body; Image.ID := body;
                               Image.Links := []; Image.Progress := 0;
                               Image.Metadata := ∅; Image.Status := body;
                               Image.Updated := body |} |}, None))
         tt "42")
  = Returns (None, Some (errors_New "404")).
Proof.
  apply (list_requests unit (fun _ => "t1") "https://compute/"
           (answering EmptyString (Some (errors_New "404")))
           unit (fun _ => (tt, None))
           (fun _ => ({| Images.I := [] |}, None))).
  reflexivity.
Defined.
